(** * ec2cluster: elastic clusters of Reflow instances on EC2

    A shallow embedding of [ec2cluster.go]: the durable instance set kept
    in the state file, the capacity view ([update]), the reconciler
    ([reconcile]), the allocation entry point ([Allocate]) and the loop
    that grows the cluster ([loop]).

    Go maps are [gmap]s, Go slices are lists, Go [int]s are [Z] (the
    counters of this file stay far below 2^63: [npending] is bounded by
    [maxPending] and [n] is the length of a map).  Goroutines talk through
    channels only; each blocking [select] is modelled by the event it
    receives. *)

From Stdlib Require Import ZArith Lia QArith Qcanon.
From stdpp Require Import base numbers option list strings pretty gmap fin_maps fin_sets sorting.

Open Scope Z_scope.

(** ** Package reflow: resources and requirements *)

Module reflow.

(** Modelled from the spec: [reflow.Resources], declared outside this
    file.  A mapping from resource-kind name to a quantity; a kind that
    is not in the map has quantity zero.  The source holds [float64]
    quantities; they are exact integers here. *)
Abbreviation Resources := (gmap string Z).

Definition get (r : Resources) (key : string) : Z := default 0 (r !! key).

(** Two vectors are the same resources when they agree on every kind. *)
Definition equal (x y : Resources) : Prop := ∀ key, get x key = get y key.

Definition pointwise (op : Z → Z → Z) (x y : Resources) : Resources :=
  merge (λ a b, match a, b with
                | None, None => None
                | _, _ => Some (op (default 0 a) (default 0 b))
                end) x y.

(** Modelled from the spec: addition, subtraction and element-wise
    minimum of resource vectors. *)
Definition Add : Resources → Resources → Resources := pointwise Z.add.
Definition Sub : Resources → Resources → Resources := pointwise Z.sub.
Definition Min : Resources → Resources → Resources := pointwise Z.min.

(** Modelled from the spec: less-than-or-equal in every dimension. *)
Definition LessEqualAll (x y : Resources) : bool :=
  bool_decide (set_Forall (λ key, get x key ≤ get y key) (dom x ∪ dom y)).

(** [reflow.Requirements]: at least [Min], up to [Max]. *)
Record Requirements := { Min_ : Resources; Max_ : Resources }.

End reflow.

Abbreviation Requirements := reflow.Requirements.

(** ** Errors *)

(** The error values this file tells apart: [state.ErrNoState], the two
    errors a [context.Context] reports once it is done, the error kinds
    [errors.ResourcesExhausted] and [errors.Unavailable], and any other
    error with its message. *)
Inductive error :=
  | ErrNoState
  | Canceled
  | DeadlineExceeded
  | errors_ResourcesExhausted
  | errors_Unavailable
  | OtherError (msg : string).

#[global] Instance error_eq_dec : EqDecision error.
Proof. solve_decision. Defined.

(** ** Instances and their configurations *)

(** The fields of [ec2.Instance] that this file reads. *)
Record ec2Instance := {
  InstanceId : string;
  PublicDnsName : string;
  StateName : string;
}.

#[global] Instance ec2Instance_eq_dec : EqDecision ec2Instance.
Proof. solve_decision. Defined.

(** The fields of [instanceConfig] that this file reads.  The price of a
    launch is [config.Price[c.Region]], a function of the configuration. *)
Record instanceConfig := {
  Type_ : string;
  Resources : reflow.Resources;
}.

(** The zero value [instanceConfig{}]. *)
Definition zeroConfig : instanceConfig := {| Type_ := ""; Resources := ∅ |}.

(** ** The state file *)

(** [state.File] holds the durable instance set.  [content] is what is
    stored ([None]: nothing has been stored yet); [readErr] and [writeErr]
    are the faults of the store: when set, every read (write) fails with
    that error and has no effect. *)
Record stateFile := {
  content : option (gmap string ec2Instance);
  readErr : option error;
  writeErr : option error;
}.

(** [File.Unmarshal(&instances)] *)
Definition Unmarshal (f : stateFile) : error + gmap string ec2Instance :=
  match readErr f with
  | Some e => inl e
  | None =>
      match content f with
      | None => inl ErrNoState
      | Some instances => inr instances
      end
  end.

(** [File.Marshal(instances)] *)
Definition Marshal (f : stateFile) (instances : gmap string ec2Instance)
  : stateFile * option error :=
  match writeErr f with
  | Some e => (f, Some e)
  | None => ({| content := Some instances; readErr := readErr f; writeErr := writeErr f |}, None)
  end.

(** The durable instance set as the code sees it: absent state reads as
    the empty set. *)
Definition durable (f : stateFile) : gmap string ec2Instance :=
  match Unmarshal f with inr instances => instances | inl _ => ∅ end.

(** Entries are stored under their own instance id ([add] writes
    [instances[*inst.InstanceId] = inst]). *)
Definition keyed (instances : gmap string ec2Instance) : Prop :=
  map_Forall (λ id inst, InstanceId inst = id) instances.

(** ** Describe responses *)

(** [ec2MaxFilter] is the maximum number of filter expressions that are
    permitted in EC2 API calls. *)
Definition ec2MaxFilter : nat := 200.

(** [resp.Reservations]: each reservation lists instances. *)
Definition describeOutput := list (list ec2Instance).

(** ** The cluster *)

Section Cluster.

(** [pool.Pool] handles and the instance state are declared elsewhere. *)
Context {Pool instanceState : Type}.

(** [client.New(baseurl, ...)]: a handle, or an error ([None]; the nil
    result is what the caller is left with). *)
Variable client_New : string → option Pool.

(** The fields of [Cluster] that the code of this file reads or writes.
    [EC2] stands for [c.EC2.DescribeInstances] with an instance-id
    filter on the given ids; a [nil] pool is [None]. *)
Record Cluster := {
  Mux : list (option Pool);
  File : stateFile;
  EC2 : list string → error + describeOutput;
  Spot : bool;
  MaxInstances : Z;
  instanceState_ : instanceState;
  pools : gmap string (option Pool);
}.

Definition setFile (c : Cluster) (f : stateFile) : Cluster :=
  {| Mux := Mux c; File := f; EC2 := EC2 c; Spot := Spot c;
     MaxInstances := MaxInstances c; instanceState_ := instanceState_ c;
     pools := pools c |}.

Definition setPools (c : Cluster) (ps : gmap string (option Pool)) (mux : list (option Pool)) : Cluster :=
  {| Mux := mux; File := File c; EC2 := EC2 c; Spot := Spot c;
     MaxInstances := MaxInstances c; instanceState_ := instanceState_ c;
     pools := ps |}.

Definition setInstanceState (c : Cluster) (s : instanceState) : Cluster :=
  {| Mux := Mux c; File := File c; EC2 := EC2 c; Spot := Spot c;
     MaxInstances := MaxInstances c; instanceState_ := s;
     pools := pools c |}.

(** [c.pools[id] == nil]: no entry, or a nil entry. *)
Definition isNil (p : option (option Pool)) : bool :=
  match p with Some (Some _) => false | _ => true end.

Definition baseurl (inst : ec2Instance) : string :=
  "https://" +:+ PublicDnsName inst +:+ ":9000/v1/".

(** [vals] *)
Definition vals (m : gmap string (option Pool)) : list (option Pool) :=
  (map_to_list m).*2.

(** The first loop of [update]: a handle for each entry that has none. *)
Definition connect (instances : gmap string ec2Instance)
    (ps : gmap string (option Pool)) : gmap string (option Pool) :=
  map_fold (λ id inst ps,
              if isNil (ps !! id)
              then <[InstanceId inst := client_New (baseurl inst)]> ps
              else ps)
           ps instances.

(** The second loop of [update]: drop the handles without an entry. *)
Definition prune (instances : gmap string ec2Instance)
    (ps : gmap string (option Pool)) : gmap string (option Pool) :=
  filter (λ kv, is_Some (instances !! kv.1)) ps.

(** [update] *)
Definition update (c : Cluster) : Cluster :=
  match Unmarshal (File c) with
  | inl _ => c
  | inr instances =>
      let ps := prune instances (connect instances (pools c)) in
      setPools c ps (vals ps)
  end.

(** [updateState] *)
Definition updateState (c : Cluster)
    (upd : gmap string ec2Instance → gmap string ec2Instance) : Cluster :=
  let instances :=
    match Unmarshal (File c) with inr m => m | inl _ => ∅ end in
  let instances := upd instances in
  let '(f, _) := Marshal (File c) instances in
  update (setFile c f).

(** [add] *)
Definition add (c : Cluster) (newInstances : list ec2Instance) : Cluster :=
  updateState c (λ instances,
    foldl (λ m inst, <[InstanceId inst := inst]> m) instances newInstances).

(** [remove] *)
Definition remove (c : Cluster) (instanceIds : list string) : Cluster :=
  updateState c (λ instances,
    foldl (λ m id, delete id m) instances instanceIds).

(** *** reconcile *)

(** The lifecycle states of the [switch] in [reconcile] that mark an
    instance down. *)
Definition down (state : string) : bool :=
  bool_decide (state = "shutting-down" ∨ state = "terminated"
               ∨ state = "stopping" ∨ state = "stopped").

(** The loops over [resp.Reservations] and [resv.Instances]: instances
    that are not in the durable set are skipped; of the others, those
    that are not down are marked live. *)
Definition markLive (instances : gmap string ec2Instance)
    (live : gset string) (resp : describeOutput) : gset string :=
  foldl (λ live resv,
           foldl (λ live inst,
                    if decide (instances !! InstanceId inst = None) then live
                    else if down (StateName inst) then live
                    else {[InstanceId inst]} ∪ live)
                 live resv)
        live resp.

(** One page: the first [ec2MaxFilter] ids when there are more than
    that, all of them otherwise; and the ids that are left. *)
Definition nextPage (instanceIds : list string) : list string * list string :=
  if decide (ec2MaxFilter < length instanceIds)%nat
  then (take ec2MaxFilter instanceIds, drop ec2MaxFilter instanceIds)
  else (instanceIds, []).

(** The loop [for len(instanceIds) > 0].  Every turn takes at least one
    id off [instanceIds], so [length instanceIds] turns are enough;
    [fuel] counts the turns that are left. *)
Fixpoint describePages (fuel : nat) (describe : list string → error + describeOutput)
    (instances : gmap string ec2Instance)
    (instanceIds : list string) (live : gset string) : error + gset string :=
  match instanceIds, fuel with
  | [], _ => inr live
  | _ :: _, O => inr live
  | _ :: _, S fuel =>
      let '(queryInstanceIds, instanceIds) := nextPage instanceIds in
      match describe queryInstanceIds with
      | inl err => inl err
      | inr resp =>
          describePages fuel describe instances instanceIds
                        (markLive instances live resp)
      end
  end.

(** The pages that loop queries, in order. *)
Fixpoint pages (fuel : nat) (instanceIds : list string) : list (list string) :=
  match instanceIds, fuel with
  | [], _ => []
  | _ :: _, O => []
  | _ :: _, S fuel =>
      let '(queryInstanceIds, instanceIds) := nextPage instanceIds in
      queryInstanceIds :: pages fuel instanceIds
  end.

(** The ids of the durable set, in the order of [map_to_list]. *)
Definition keys (instances : gmap string ec2Instance) : list string :=
  (map_to_list instances).*1.

(** [for id := range instances]: Go ranges over a map in an order of its
    choosing.  [rangeOf] gives the ids in the order taken; it is some
    arrangement of [keys]. *)
Variable rangeOf : gmap string ec2Instance → list string.

(** The ids that [reconcile] hands to [remove]. *)
Definition deadIds (instances : gmap string ec2Instance) (live : gset string)
  : list string :=
  filter (λ id, id ∉ live) (rangeOf instances).

(** [reconcile] *)
Definition reconcile (c : Cluster) : Cluster * option error :=
  match Unmarshal (File c) with
  | inl err =>
      if decide (err = ErrNoState) then (c, None) else (c, Some err)
  | inr instances =>
      let instanceIds := rangeOf instances in
      match describePages (length instanceIds) (EC2 c) instances instanceIds ∅ with
      | inl err => (c, Some err)
      | inr live => (remove c (deadIds instances live), None)
      end
  end.

(** *** maintain *)

(** The two tickers of [maintain]. *)
Inductive tick := ec2Tick | updateTick.

(** One turn of the [select] in [maintain]; the reconcile error is
    logged and dropped. *)
Definition maintainStep (c : Cluster) (t : tick) : Cluster :=
  match t with
  | ec2Tick => (reconcile c).1
  | updateTick => update c
  end.

(** [maintain], run for the given ticks. *)
Definition maintain (c : Cluster) (ticks : list tick) : Cluster :=
  foldl maintainStep (reconcile c).1 ticks.

(** *** The instance state *)

(** The methods of [instanceState] that this file calls, declared
    elsewhere: [MinAvailable(need, spot)] returns a configuration and
    whether one was found, [Available(need)] tells whether some
    configuration can hold [need], [Unavailable(config)] marks a
    configuration unavailable. *)
Variable MinAvailable : instanceState → reflow.Resources → bool → instanceConfig * bool.
Variable Available : instanceState → reflow.Resources → bool.
Variable Unavailable : instanceState → instanceConfig → instanceState.

(** [(Resources).ScaledDistance(nil)], declared elsewhere: the magnitude
    of a request. *)
Variable ScaledDistance : reflow.Resources → Qc.

(** *** Waiters *)

(** A [waiter].  [ctx] names the caller's context and [ch] the channel
    [c] that [Notify] closes. *)
Record waiter := {
  Requirements_ : Requirements;
  ctx : nat;
  ch : nat;
}.

Definition Min (w : waiter) : reflow.Resources := reflow.Min_ (Requirements_ w).
Definition Max (w : waiter) : reflow.Resources := reflow.Max_ (Requirements_ w).

(** The [less] function handed to [sort.Slice]. *)
Definition less (wi wj : waiter) : bool :=
  bool_decide (ScaledDistance (Min wi) < ScaledDistance (Min wj))%Qc.

(** [sort.Slice(waiters, less)]: the waiters in an order in which no
    waiter is [less] than one before it. *)
Definition inOrder (wi wj : waiter) : Prop := less wj wi = false.

#[global] Instance inOrder_dec : RelDecision inOrder.
Proof. intros wi wj. unfold inOrder. apply _. Defined.

Definition sort_Slice (ws : list waiter) : list waiter :=
  merge_sort inOrder ws.

(** *** Packing *)

(** The packing loops of [loop] over the sorted waiters.  The inner
    [for] has the post statement [i, best = i+1, wbest], which runs
    after every turn of its body, also the last one. *)
Fixpoint pack (ist : instanceState) (spot : bool) (ws : list waiter)
  : list instanceConfig :=
  match ws with
  | [] => []
  | w :: ws =>
      let need := reflow.Add ∅ (Min w) in
      let '(best, ok) := MinAvailable ist need spot in
      if ok then
        (fix inner (need : reflow.Resources) (best : instanceConfig)
             (ws : list waiter) : list instanceConfig :=
           match ws with
           | [] => [best]
           | w :: ws =>
               let need := reflow.Add need (Min w) in
               let '(wbest, ok) := MinAvailable ist need spot in
               if ok then inner need wbest ws
               else wbest :: pack ist spot ws
           end) need best ws
      else pack ist spot ws
  end.

(** The packing as the specification words it: a bucket is extended
    while a configuration holds the accumulated need; the waiter that
    breaks it closes the bucket with the configuration found for the
    waiters before it, and opens the next bucket. *)
Fixpoint pack_spec (fuel : nat) (ist : instanceState) (spot : bool)
    (ws : list waiter) : list instanceConfig :=
  match fuel, ws with
  | O, _ | _, [] => []
  | S fuel, w :: ws =>
      let need := reflow.Add ∅ (Min w) in
      let '(best, ok) := MinAvailable ist need spot in
      if ok then
        (fix inner (need : reflow.Resources) (best : instanceConfig)
             (ws : list waiter) : list instanceConfig :=
           match ws with
           | [] => [best]
           | w :: ws' =>
               let need := reflow.Add need (Min w) in
               let '(wbest, ok) := MinAvailable ist need spot in
               if ok then inner need wbest ws'
               else best :: pack_spec fuel ist spot ws
           end) need best ws
      else pack_spec fuel ist spot ws
  end.

(** *** loop *)

Definition maxPending : Z := 5.

(** The variables of [loop], and the launches in flight: the
    configurations handed to [go launch] whose instance has not been
    received from [done] yet. *)
Record loopState := {
  cluster : Cluster;
  waiters : list waiter;
  pending : reflow.Resources;
  npending : Z;
  inflight : list instanceConfig;
}.

(** The launch loop
    [for len(todo) > 0 && npending < maxPending && n+npending < c.MaxInstances]:
    the new [pending] and [npending], and the configurations launched. *)
Fixpoint launchAll (maxInstances n : Z) (todo : list instanceConfig)
    (pending : reflow.Resources) (npending : Z)
  : reflow.Resources * Z * list instanceConfig :=
  match todo with
  | [] => (pending, npending, [])
  | config :: todo =>
      if bool_decide (npending < maxPending ∧ n + npending < maxInstances)
      then
        let '(pending', npending', launched) :=
          launchAll maxInstances n todo
                    (reflow.Add pending (Resources config)) (npending + 1) in
        (pending', npending', config :: launched)
      else (pending, npending, [])
  end.

(** The first half of a turn of [loop], up to the label [sleep]: sort,
    pack, launch.  Returns the state and [needPoll]. *)
Definition grow (s : loopState) : loopState * bool :=
  let c := cluster s in
  let n := Z.of_nat (size (durable (File c))) in
  let waiters := sort_Slice (waiters s) in
  let todo := pack (instanceState_ c) (Spot c) waiters in
  if bool_decide ((0 < length waiters)%nat ∧ length todo = 0%nat)
  then
    ({| cluster := c; waiters := waiters; pending := pending s;
        npending := npending s; inflight := inflight s |}, true)
  else
    let '(pending', npending', launched) :=
      launchAll (MaxInstances c) n todo (pending s) (npending s) in
    ({| cluster := c; waiters := waiters; pending := pending';
        npending := npending'; inflight := inflight s ++ launched |}, false).

(** The scan of the waiters after an instance came up: the waiters that
    stay, the waiters notified, and the resources left on the instance.
    [ctxErr] gives [w.ctx.Err()]. *)
Fixpoint satisfy (ctxErr : nat → option error) (available : reflow.Resources)
    (ws : list waiter) : list waiter * list waiter * reflow.Resources :=
  match ws with
  | [] => ([], [], available)
  | w :: ws =>
      if decide (ctxErr (ctx w) ≠ None) then satisfy ctxErr available ws
      else if reflow.LessEqualAll (Min w) available then
        let tmp := reflow.Min (Max w) available in
        let '(ws', notified, rest) :=
          satisfy ctxErr (reflow.Sub available tmp) ws in
        (ws', w :: notified, rest)
      else
        let '(ws', notified, rest) := satisfy ctxErr available ws in
        (w :: ws', notified, rest)
  end.

(** What the [select] of [loop] receives: the poll timer; an instance
    from [done], which is the launch at position [k] of those in flight,
    with its [Err()] and its [Instance()]; a waiter from [c.wait]. *)
Inductive event :=
  | pollch
  | done (k : nat) (err : option error) (instance : ec2Instance)
  | wait (w : waiter).

(** The second half of a turn of [loop], from the label [sleep]: the
    [select] on the event received.  [None] when the event cannot be
    received in this state: the poll timer is armed by [needPoll] only,
    and [done] carries a launch that is in flight.  The second component
    lists the waiters notified. *)
Definition receive (ctxErr : nat → option error) (s : loopState)
    (needPoll : bool) (ev : event) : option (loopState * list waiter) :=
  match ev with
  | pollch => if needPoll then Some (s, []) else None
  | done k err instance =>
      match inflight s !! k with
      | None => None
      | Some config =>
          let pending := reflow.Sub (pending s) (Resources config) in
          let npending := npending s - 1 in
          let inflight := delete k (inflight s) in
          match err with
          | Some e =>
              let c :=
                if decide (e = errors_Unavailable)
                then setInstanceState (cluster s)
                       (Unavailable (instanceState_ (cluster s)) config)
                else cluster s in
              Some ({| cluster := c; waiters := waiters s; pending := pending;
                       npending := npending; inflight := inflight |}, [])
          | None =>
              let c := add (cluster s) [instance] in
              let '(ws, notified, _) :=
                satisfy ctxErr (Resources config) (waiters s) in
              Some ({| cluster := c; waiters := ws; pending := pending;
                       npending := npending; inflight := inflight |}, notified)
          end
      end
  | wait w =>
      let ws := filter (λ w, ctxErr (ctx w) = None) (waiters s) in
      Some ({| cluster := cluster s; waiters := ws ++ [w];
               pending := pending s; npending := npending s;
               inflight := inflight s |}, [])
  end.

(** One turn of [loop]. *)
Definition turn (ctxErr : nat → option error) (s : loopState) (ev : event)
  : option (loopState * list waiter) :=
  let '(s, needPoll) := grow s in receive ctxErr s needPoll ev.

(** The state in which [loop] starts. *)
Definition start (c : Cluster) : loopState :=
  {| cluster := c; waiters := []; pending := ∅; npending := 0; inflight := [] |}.

(** The states [loop] reaches from its start, turn after turn; between
    turns [maintain] may run on the cluster. *)
Inductive reaches (c : Cluster) : loopState → Prop :=
  | reaches_start : reaches c (start c)
  | reaches_turn s ctxErr ev s' notified :
      reaches c s → turn ctxErr s ev = Some (s', notified) → reaches c s'
  | reaches_maintain s t :
      reaches c s →
      reaches c {| cluster := maintainStep (cluster s) t; waiters := waiters s;
                   pending := pending s; npending := npending s;
                   inflight := inflight s |}.

(** [loop] run from a state on the events it receives, each with the
    state of the contexts at that time. *)
Fixpoint run (s : loopState) (evs : list ((nat → option error) * event))
  : option loopState :=
  match evs with
  | [] => Some s
  | (ctxErr, ev) :: evs =>
      match turn ctxErr s ev with
      | Some (s', _) => run s' evs
      | None => None
      end
  end.

(** *** Allocate *)

(** [pool.Alloc], declared elsewhere. *)
Context {Alloc : Type}.

(** What the [select] of [Allocate] receives: the context is done, with
    its [ctx.Err()]; the waiter's channel, or the ticker, each with the
    result of the [pool.Allocate] that this case then makes. *)
Inductive allocEvent :=
  | ctxDone (err : error)
  | needch (r : error + Alloc)
  | tickerC (r : error + Alloc).

(** What [Allocate] does to the rest of the cluster: [c.need] sends a
    waiter to [loop]; [pool.Allocate] tries the pools. *)
Inductive effect :=
  | need (req : Requirements)
  | poolAllocate.

(** [Allocate] has returned [(alloc, err)], or is blocked in its
    [select]. *)
Inductive outcome :=
  | returned (alloc : option Alloc) (err : option error)
  | selecting.

(** The [for { select { ... } }] of [Allocate]. *)
Fixpoint retry (req : Requirements) (evs : list allocEvent)
  : outcome * list effect :=
  match evs with
  | [] => (selecting, [])
  | ctxDone err :: _ => (returned None (Some err), [])
  | needch (inr alloc) :: _ => (returned (Some alloc) None, [poolAllocate])
  | needch (inl _) :: evs =>
      let '(o, effs) := retry req evs in (o, poolAllocate :: need req :: effs)
  | tickerC (inr alloc) :: _ => (returned (Some alloc) None, [poolAllocate])
  | tickerC (inl _) :: evs =>
      let '(o, effs) := retry req evs in (o, poolAllocate :: effs)
  end.

(** [Allocate].  [direct] is the result of the attempt on the existing
    pools, made when there are any. *)
Definition Allocate (c : Cluster) (req : Requirements)
    (direct : error + Alloc) (evs : list allocEvent) : outcome * list effect :=
  if negb (Available (instanceState_ c) (reflow.Min_ req))
  then (returned None (Some errors_ResourcesExhausted), [])
  else
    let enter := let '(o, effs) := retry req evs in (o, need req :: effs) in
    if bool_decide (0 < length (Mux c))%nat then
      match direct with
      | inr alloc => (returned (Some alloc) None, [poolAllocate])
      | inl _ => let '(o, effs) := enter in (o, poolAllocate :: effs)
      end
    else enter.

End Cluster.

Arguments Cluster : clear implicits.
Arguments loopState : clear implicits.
Arguments allocEvent : clear implicits.
Arguments outcome : clear implicits.

(** ** The notions of the specification *)

Section Notions.

Context {Pool instanceState : Type}.

(** The instances that the provider lists in answer to the given pages
    of ids. *)
Definition described (describe : list string → error + describeOutput)
    (ps : list (list string)) : list ec2Instance :=
  flat_map (λ page, match describe page with
                    | inr resp => concat resp
                    | inl _ => []
                    end) ps.

(** No answer lists the id. *)
Definition absent (insts : list ec2Instance) (id : string) : Prop :=
  ∀ inst, inst ∈ insts → InstanceId inst ≠ id.

(** The id is listed, and every listing of it carries one of the states
    shutting-down, terminated, stopping, stopped. *)
Definition reportedDown (insts : list ec2Instance) (id : string) : Prop :=
  (∃ inst, inst ∈ insts ∧ InstanceId inst = id) ∧
  (∀ inst, inst ∈ insts → InstanceId inst = id → down (StateName inst) = true).

(** A durable entry is dead when it is reported down or absent. *)
Definition dead (instances : gmap string ec2Instance)
    (insts : list ec2Instance) (id : string) : Prop :=
  is_Some (instances !! id) ∧ (reportedDown insts id ∨ absent insts id).

#[global] Instance absent_dec insts id : Decision (absent insts id).
Proof.
  refine (cast_if (decide (Forall (λ inst, InstanceId inst ≠ id) insts)));
    unfold absent; by rewrite <- Forall_forall.
Defined.

#[global] Instance reportedDown_dec insts id : Decision (reportedDown insts id).
Proof.
  refine (cast_if_and
            (decide (Exists (λ inst, InstanceId inst = id) insts))
            (decide (Forall (λ inst, InstanceId inst = id →
                                     down (StateName inst) = true) insts)));
    unfold reportedDown; rewrite ?Forall_forall, ?Exists_exists in *.
  - split; [done | done].
  - by intros [_ ?].
  - by intros [? _].
Defined.

#[global] Instance dead_dec instances insts id : Decision (dead instances insts id).
Proof. unfold dead. apply _. Defined.

(** The pages of a reconcile cycle over the given ids. *)
Definition cyclePages (instanceIds : list string) : list (list string) :=
  pages (length instanceIds) instanceIds.

(** A provider that answers as [describe] does, without the instances
    that are not in the durable set. *)
Definition ownOnly (instances : gmap string ec2Instance)
    (describe : list string → error + describeOutput)
  : list string → error + describeOutput :=
  λ page, match describe page with
          | inl err => inl err
          | inr resp =>
              inr (filter (λ inst, is_Some (instances !! InstanceId inst)) <$> resp)
          end.

Definition setEC2 (c : Cluster Pool instanceState)
    (describe : list string → error + describeOutput) : Cluster Pool instanceState :=
  {| Mux := Mux c; File := File c; EC2 := describe; Spot := Spot c;
     MaxInstances := MaxInstances c; instanceState_ := instanceState_ c;
     pools := pools c |}.

(** The capacity view holds one live handle for each durable entry and
    nothing for any other id. *)
Definition oneLiveHandlePerEntry (c : Cluster Pool instanceState) : Prop :=
  ∀ id, match durable (File c) !! id with
        | Some _ => ∃ h, pools c !! id = Some (Some h)
        | None => pools c !! id = None
        end.

(** The sum of the resources of the given configurations. *)
Definition total (configs : list instanceConfig) : reflow.Resources :=
  foldr (λ config sum, reflow.Add (Resources config) sum) ∅ configs.

(** The scan of the waiters as the specification words it, from the
    capacity [available] of the new instance: [Scan ctxErr available ws
    kept notified]. *)
Inductive Scan (ctxErr : nat → option error)
  : reflow.Resources → list waiter → list waiter → list waiter → Prop :=
  | Scan_nil available : Scan ctxErr available [] [] []
  | Scan_expired available w ws kept notified :
      ctxErr (ctx w) ≠ None →
      Scan ctxErr available ws kept notified →
      Scan ctxErr available (w :: ws) kept notified
  | Scan_satisfied available w ws kept notified :
      ctxErr (ctx w) = None →
      (∀ key, reflow.get (Min w) key ≤ reflow.get available key) →
      Scan ctxErr (reflow.Sub available (reflow.Min (Max w) available)) ws kept notified →
      Scan ctxErr available (w :: ws) kept (w :: notified)
  | Scan_kept available w ws kept notified :
      ctxErr (ctx w) = None →
      ¬ (∀ key, reflow.get (Min w) key ≤ reflow.get available key) →
      Scan ctxErr available ws kept notified →
      Scan ctxErr available (w :: ws) (w :: kept) notified.

(** An event of [Allocate]'s [select] after which the loop goes on: an
    allocation attempt that failed. *)
Definition failedAttempt {Alloc : Type} (ev : allocEvent Alloc) : Prop :=
  match ev with
  | needch (inl _) | tickerC (inl _) => True
  | _ => False
  end.

End Notions.

(** ** Starting the cluster, and what a launch asks for *)

Section Starting.

Context {Pool instanceState : Type}.
Variable client_New : string → option Pool.

(** [newInstanceState(instances, sleep, region)], declared elsewhere. *)
Variable newInstanceState : list instanceConfig → Z → string → instanceState.

(** The fields of [Cluster] that [Init] checks, besides [MaxInstances].
    [InstanceTypes] is a map that may be nil ([None]). *)
Record settings := {
  DiskType : string;
  DiskSpace : Z;
  AMI : string;
  Region : string;
  SecurityGroup : string;
  InstanceTypes : option (gmap string bool);
}.

(** What a Go [int] of 64 bits keeps of an integer. *)
Definition wrap64 (z : Z) : Z := (z + 2 ^ 63) mod 2 ^ 64 - 2 ^ 63.

(** [c.DiskSpace << 30] *)
Definition diskBytes (p : settings) : Z := wrap64 (Z.shiftl (DiskSpace p) 30).

(** [c.InstanceTypes == nil || c.InstanceTypes[config.Type]] *)
Definition admitted (p : settings) (config : instanceConfig) : bool :=
  match InstanceTypes p with
  | None => true
  | Some types => default false (types !! Type_ config)
  end.

(** [config.Resources["disk"] = float64(c.DiskSpace << 30)] *)
Definition withDisk (p : settings) (config : instanceConfig) : instanceConfig :=
  {| Type_ := Type_ config;
     Resources := <["disk" := diskBytes p]> (Resources config) |}.

(** The loop of [Init] over [instanceTypes]: the legal instances. *)
Definition legalInstances (p : settings) (instanceTypes : list instanceConfig)
  : list instanceConfig :=
  withDisk p <$> filter (λ config, admitted p config = true) instanceTypes.

(** The table [instanceTypes] as that loop leaves it: the resources of a
    configuration are a map, which the copy the loop writes to shares
    with the table. *)
Definition tableAfter (p : settings) (instanceTypes : list instanceConfig)
  : list instanceConfig :=
  (λ config, if admitted p config then withDisk p config else config)
    <$> instanceTypes.

(** [time.Minute], in nanoseconds. *)
Definition Minute : Z := 60 * 1000000000.

(** [Init]: the cluster and the table [instanceTypes] as it leaves them,
    and the error.  On success [maintain] and [loop] start from the
    cluster returned. *)
Definition Init (p : settings) (instanceTypes : list instanceConfig)
    (c : Cluster Pool instanceState)
  : Cluster Pool instanceState * list instanceConfig * option error :=
  if decide (MaxInstances c = 0)
  then (c, instanceTypes, Some (OtherError "missing max instances parameter"))
  else if decide (DiskType p = "")
  then (c, instanceTypes, Some (OtherError "missing disk type parameter"))
  else if decide (DiskSpace p = 0)
  then (c, instanceTypes, Some (OtherError "missing disk space parameter"))
  else if decide (AMI p = "")
  then (c, instanceTypes, Some (OtherError "missing AMI parameter"))
  else if decide (Region p = "")
  then (c, instanceTypes, Some (OtherError "missing region parameter"))
  else if decide (SecurityGroup p = "")
  then (c, instanceTypes, Some (OtherError "missing EC2 security group"))
  else
    let c := setPools c ∅ (Mux c) in
    let instances := legalInstances p instanceTypes in
    let instanceTypes := tableAfter p instanceTypes in
    if decide (length instances = 0%nat)
    then (c, instanceTypes, Some (OtherError "no configured instance types"))
    else
      let c := setInstanceState c
                 (newInstanceState instances (5 * Minute) (Region p)) in
      (update client_New c, instanceTypes, None).

(** [EBSSize: uint64(config.Resources["disk"]) >> 30] in [launch].  The
    conversion of a number outside the range of [uint64] is left to the
    implementation: [None]. *)
Definition EBSSize (config : instanceConfig) : option Z :=
  let disk := reflow.get (Resources config) "disk" in
  if decide (0 ≤ disk < 2 ^ 64) then Some (Z.shiftr disk 30) else None.

End Starting.

(** ** Runs of the loop and of Allocate *)

Section Running.

Context {Pool instanceState : Type}.
Variable client_New : string → option Pool.
Variable MinAvailable : instanceState → reflow.Resources → bool → instanceConfig * bool.
Variable Unavailable : instanceState → instanceConfig → instanceState.
Variable ScaledDistance : reflow.Resources → Qc.

(** [loop] run on events as [run] does, with the waiters it notified, in
    the order of the calls of [Notify]. *)
Fixpoint runLog (s : loopState Pool instanceState)
    (evs : list ((nat → option error) * event))
  : option (loopState Pool instanceState * list waiter) :=
  match evs with
  | [] => Some (s, [])
  | (ctxErr, ev) :: evs =>
      match turn client_New MinAvailable Unavailable ScaledDistance ctxErr s ev with
      | Some (s', notified) =>
          match runLog s' evs with
          | Some (s'', log) => Some (s'', notified ++ log)
          | None => None
          end
      | None => None
      end
  end.

(** The waiters that the events bring from [c.wait]. *)
Definition arrivals (evs : list ((nat → option error) * event)) : list waiter :=
  evs ≫= (λ e, match e.2 with wait w => [w] | _ => [] end).

(** The [need] that the packing accumulates over the given waiters. *)
Definition needOf (ws : list waiter) : reflow.Resources :=
  foldl (λ need w, reflow.Add need (Min w)) ∅ ws.

(** An effect of [Allocate] that sends a waiter. *)
Definition isNeed (e : effect) : bool :=
  match e with need _ => true | poolAllocate => false end.

(** The number of waiters that a list of effects of [Allocate] sends. *)
Definition registrations (effs : list effect) : nat :=
  length (filter (λ e, isNeed e = true) effs).

(** An attempt made on a signal of the waiter that failed. *)
Definition isFailedSignal {Alloc : Type} (ev : allocEvent Alloc) : bool :=
  match ev with needch (inl _) => true | _ => false end.

Definition failedSignals {Alloc : Type} (evs : list (allocEvent Alloc)) : nat :=
  length (filter (λ ev, isFailedSignal ev = true) evs).

End Running.

(** ** A small cluster to run the code on *)

Module Example.

(** Pools are named by their URL; allocs are numbered. *)
Definition Pool : Type := string.
Definition Alloc : Type := nat.

(** Handles can be made for every address but ["unreachable"]. *)
Definition client_New (url : string) : option Pool :=
  if decide (url = "https://unreachable:9000/v1/") then None else Some url.

Definition c3large : instanceConfig :=
  {| Type_ := "c3.large"; Resources := {[ "cpu" := 2 ]} |}.

(** Modelled from the spec: an instance state whose catalog holds one
    configuration, and whether that configuration is demoted.  The
    selection returns the configuration when it is not demoted and
    covers the need, and the zero configuration with [false] otherwise;
    satisfiability ignores the demotion. *)
Definition instanceState : Type := instanceConfig * bool.

Definition MinAvailable (s : instanceState) (need : reflow.Resources)
    (spot : bool) : instanceConfig * bool :=
  if negb s.2 && reflow.LessEqualAll need (Resources s.1)
  then (s.1, true) else (zeroConfig, false).

Definition Available (s : instanceState) (need : reflow.Resources) : bool :=
  reflow.LessEqualAll need (Resources s.1).

Definition Unavailable (s : instanceState) (config : instanceConfig)
  : instanceState :=
  if decide (Type_ config = Type_ s.1) then (s.1, true) else s.

(** The magnitude of a request, here its number of CPUs. *)
Definition ScaledDistance (r : reflow.Resources) : Qc :=
  Qc_of_Z (reflow.get r "cpu").

Definition instance (id dns state : string) : ec2Instance :=
  {| InstanceId := id; PublicDnsName := dns; StateName := state |}.

(** A provider that knows [i-1] running, [i-2] terminated and a foreign
    instance [i-9], which it lists whatever the filter. *)
Definition describe (ids : list string) : error + describeOutput :=
  inr [ [instance "i-9" "h9" "running"];
        (if decide ("i-1" ∈ ids) then [instance "i-1" "h1" "running"] else [])
          ++ (if decide ("i-2" ∈ ids) then [instance "i-2" "h2" "terminated"] else []) ].

(** A provider whose calls fail. *)
Definition throttled (ids : list string) : error + describeOutput :=
  inl (OtherError "RequestLimitExceeded").

Definition file (instances : list ec2Instance) : stateFile :=
  {| content := Some (list_to_map ((λ inst, (InstanceId inst, inst)) <$> instances));
     readErr := None; writeErr := None |}.

(** A cluster of at most two instances over the given state file. *)
Definition clusterOf (f : stateFile) (describe : list string → error + describeOutput)
  : Cluster Pool instanceState :=
  {| Mux := []; File := f; EC2 := describe; Spot := false; MaxInstances := 2;
     instanceState_ := (c3large, false); pools := ∅ |}.

Definition three : stateFile :=
  file [instance "i-1" "h1" "running"; instance "i-2" "h2" "running";
        instance "i-3" "h3" "running"].

(** A fleet of 450 instances, of which the provider knows every third
    running and every third stopped, and does not list the others. *)
Definition id (n : nat) : string := "i-" +:+ pretty n.

Definition fleet : stateFile :=
  file ((λ n, instance (id n) ("h" +:+ pretty n) "running") <$> seq 0 450).

Definition stateOf (n : nat) : option string :=
  match (n mod 3)%nat with
  | 0%nat => Some "running"
  | 1%nat => Some "stopped"
  | _ => None
  end.

Definition census : gmap string string :=
  list_to_map (omap (λ n, (λ st, (id n, st)) <$> stateOf n) (seq 0 450)).

Definition describeFleet (ids : list string) : error + describeOutput :=
  inr [omap (λ i, (λ st, instance i "" st) <$> census !! i) ids].

(** The same provider, failing on the pages that ask for the given id. *)
Definition failingOn (i : string) (ids : list string) : error + describeOutput :=
  if decide (i ∈ ids) then inl (OtherError "RequestLimitExceeded")
  else describeFleet ids.

Definition waiterOf (n : nat) (cpuMin cpuMax : Z) : waiter :=
  {| Requirements_ := {| reflow.Min_ := {[ "cpu" := cpuMin ]};
                         reflow.Max_ := {[ "cpu" := cpuMax ]} |};
     ctx := n; ch := n |}.

(** No context is done. *)
Definition background (ctx : nat) : option error := None.

(** The context numbered 1 is cancelled. *)
Definition cancelled1 (ctx : nat) : option error :=
  if decide (ctx = 1%nat) then Some Canceled else None.

(** A cluster with no instance yet. *)
Definition empty : Cluster Pool instanceState := clusterOf (file []) describe.

(** Two callers wait for a whole instance each; the first launch comes
    up when the first caller has given up. *)
Definition events : list ((nat → option error) * event) :=
  [ (background, wait (waiterOf 1 2 2));
    (background, wait (waiterOf 2 2 2));
    (cancelled1, done 0 None (instance "i-1" "h1" "running")) ].

Definition afterEvents : loopState Pool instanceState :=
  default (start empty)
          (run client_New MinAvailable Unavailable ScaledDistance
               (start empty) events).

(** Settings with eight GiB of disk that admit [c3.large] only, and a
    table of two instance types. *)
Definition eightGiB : settings :=
  {| DiskType := "gp2"; DiskSpace := 8; AMI := "ami-1"; Region := "us-west-2";
     SecurityGroup := "sg-1";
     InstanceTypes := Some {[ "c3.large" := true; "m4.large" := false ]} |}.

Definition m4large : instanceConfig :=
  {| Type_ := "m4.large"; Resources := {[ "cpu" := 2; "mem" := 8 ]} |}.

Definition table : list instanceConfig := [c3large; m4large].

(** The catalog of the example holds the first legal instance. *)
Definition newInstanceState (instances : list instanceConfig) (sleep : Z)
    (region : string) : instanceState :=
  (default zeroConfig (head instances), false).

(** A cluster without a ceiling on its instances. *)
Definition unbounded : Cluster Pool instanceState :=
  {| Mux := []; File := file []; EC2 := describe; Spot := false;
     MaxInstances := -1; instanceState_ := (c3large, false); pools := ∅ |}.

(** A state file that cannot be read but can be written. *)
Definition unreadable : stateFile :=
  {| content := Some {[ "i-1" := instance "i-1" "h1" "running" ]};
     readErr := Some (OtherError "unexpected end of JSON input");
     writeErr := None |}.

(** A provider that answers every call with nothing. *)
Definition silent (ids : list string) : error + describeOutput := inr [].

(** Two callers wait on the cluster without a ceiling. *)
Definition waiting : loopState Pool instanceState :=
  default (start unbounded)
          (run client_New MinAvailable Unavailable ScaledDistance
               (start unbounded)
               [ (background, wait (waiterOf 1 2 2));
                 (background, wait (waiterOf 2 2 2)) ]).

(** A launch of [c3.large] in flight and three waiters, as when the
    instance comes up. *)
Definition launching : loopState Pool instanceState :=
  {| cluster := empty;
     waiters := [waiterOf 1 2 2; waiterOf 2 1 1; waiterOf 3 2 2];
     pending := {[ "cpu" := 2 ]}; npending := 1; inflight := [c3large] |}.

End Example.

(** * Facts *)

(** ** Resources *)

Module reflow_facts.
Import reflow.

Lemma get_pointwise op x y key :
  op 0 0 = 0 → get (pointwise op x y) key = op (get x key) (get y key).
Proof.
  intros H0. unfold get, pointwise. rewrite lookup_merge.
  destruct (x !! key), (y !! key); simpl; auto.
Qed.

Lemma get_Add x y key : get (Add x y) key = get x key + get y key.
Proof. by apply get_pointwise. Qed.

Lemma get_Sub x y key : get (Sub x y) key = get x key - get y key.
Proof. by apply get_pointwise. Qed.

Lemma get_Min x y key : get (Min x y) key = Z.min (get x key) (get y key).
Proof. by apply get_pointwise. Qed.

Lemma get_empty key : get ∅ key = 0.
Proof. unfold get. by rewrite lookup_empty. Qed.

Lemma LessEqualAll_spec x y :
  LessEqualAll x y = true ↔ ∀ key, get x key ≤ get y key.
Proof.
  unfold LessEqualAll. rewrite bool_decide_eq_true. split.
  - intros H key. destruct (decide (key ∈ dom x ∪ dom y)) as [Hin|Hout].
    + by apply H.
    + apply not_elem_of_union in Hout as [Hx Hy].
      apply not_elem_of_dom in Hx, Hy. unfold get. by rewrite Hx, Hy.
  - intros H key _. apply H.
Qed.

#[export] Instance equal_equiv : Equivalence equal.
Proof.
  split.
  - by intros x key.
  - intros x y H key. by rewrite H.
  - intros x y z H1 H2 key. by rewrite H1, H2.
Qed.

End reflow_facts.

(** ** The state file *)

Section FileFacts.

Lemma Unmarshal_durable f instances :
  Unmarshal f = inr instances → durable f = instances.
Proof. unfold durable. by intros ->. Qed.

Lemma Unmarshal_inr f instances :
  Unmarshal f = inr instances ↔ readErr f = None ∧ content f = Some instances.
Proof.
  unfold Unmarshal.
  destruct (readErr f), (content f); (split; [intros H | intros [H1 H2]]);
    by simplify_eq.
Qed.

Lemma Marshal_ok f instances :
  writeErr f = None →
  Marshal f instances =
    ({| content := Some instances; readErr := readErr f; writeErr := None |}, None).
Proof. unfold Marshal. by intros ->. Qed.

Lemma lookup_foldl_delete (m : gmap string ec2Instance) ids id :
  foldl (λ m id, delete id m) m ids !! id =
    if decide (id ∈ ids) then None else m !! id.
Proof.
  revert m. induction ids as [|i ids IH]; intros m; cbn [foldl].
  - case_decide as Hin; [by apply elem_of_nil in Hin | done].
  - rewrite IH, lookup_delete.
    destruct (decide (id ∈ ids)) as [Hin | Hnin].
    + rewrite (decide_True (P := id ∈ i :: ids)); [done |].
      apply elem_of_cons. by right.
    + destruct (decide (i = id)) as [-> | Hne].
      * rewrite (decide_True (P := id ∈ id :: ids)); [done |].
        apply elem_of_cons. by left.
      * rewrite (decide_False (P := id ∈ i :: ids)); [done |].
        intros [-> | Hin]%elem_of_cons; [by destruct Hne | by destruct Hnin].
Qed.

Lemma keyed_insert (m : gmap string ec2Instance) inst :
  keyed m → keyed (<[InstanceId inst := inst]> m).
Proof.
  intros Hm id inst'. rewrite lookup_insert. case_decide; naive_solver.
Qed.

Lemma elem_of_concat {A} (x : A) (ls : list (list A)) :
  x ∈ concat ls ↔ ∃ l, x ∈ l ∧ l ∈ ls.
Proof.
  rewrite list_elem_of_In, in_concat. split; intros (l & H1 & H2); exists l.
  - by rewrite !list_elem_of_In.
  - by rewrite <- !list_elem_of_In.
Qed.

End FileFacts.

(** ** The capacity view *)

Section UpdateFacts.

Context {Pool instanceState : Type}.
Variable client_New : string → option Pool.

Implicit Types (c : Cluster Pool instanceState) (ps : gmap string (option Pool)).

(** With every entry under its own id, the first loop of [update] fills
    in the entries that are nil and touches nothing else: what it leaves
    under an id depends on that id's entry alone. *)
Lemma lookup_connect instances ps id :
  keyed instances →
  connect client_New instances ps !! id =
    match instances !! id with
    | Some inst =>
        if isNil (ps !! id) then Some (client_New (baseurl inst)) else ps !! id
    | None => ps !! id
    end.
Proof.
  unfold connect. revert id.
  induction instances as [|i inst m Hi Hfold IH] using map_first_key_ind;
    intros id Hkeyed.
  - by rewrite map_fold_empty, lookup_empty.
  - rewrite map_fold_insert_first_key by done.
    assert (InstanceId inst = i) as Hid.
    { apply (Hkeyed i inst). by rewrite lookup_insert_eq. }
    assert (keyed m) as Hm.
    { intros j x Hj. apply (Hkeyed j x).
      rewrite lookup_insert_ne; [done | congruence]. }
    rewrite Hid.
    pose proof (IH i Hm) as Hi'. rewrite Hi in Hi'.
    rewrite Hi'. destruct (decide (i = id)) as [->|Hne].
    + rewrite lookup_insert_eq.
      destruct (isNil (ps !! id)) eqn:Hnil.
      * by rewrite lookup_insert_eq.
      * by rewrite IH, Hi.
    + rewrite (lookup_insert_ne m) by done.
      destruct (isNil (ps !! i)).
      * rewrite lookup_insert_ne by done. by apply IH.
      * by apply IH.
Qed.

Lemma lookup_prune instances ps id :
  prune instances ps !! id =
    match instances !! id with Some _ => ps !! id | None => None end.
Proof.
  unfold prune. destruct (instances !! id) as [inst|] eqn:Hid.
  - destruct (ps !! id) as [p|] eqn:Hp.
    + apply map_lookup_filter_Some. split; [done |]. simpl. by rewrite Hid.
    + apply map_lookup_filter_None. by left.
  - apply map_lookup_filter_None. right. intros p _ [? ?]. simpl in *. congruence.
Qed.

Lemma update_unreadable c err :
  Unmarshal (File c) = inl err → update client_New c = c.
Proof. unfold update. by intros ->. Qed.

Lemma File_update c : File (update client_New c) = File c.
Proof. unfold update. by destruct (Unmarshal (File c)). Qed.

Lemma MaxInstances_update c :
  MaxInstances (update client_New c) = MaxInstances c.
Proof. unfold update. by destruct (Unmarshal (File c)). Qed.

Lemma lookup_pools_update c instances id :
  Unmarshal (File c) = inr instances → keyed instances →
  pools (update client_New c) !! id =
    match instances !! id with
    | Some inst =>
        if isNil (pools c !! id) then Some (client_New (baseurl inst))
        else pools c !! id
    | None => None
    end.
Proof.
  intros Hread Hkeyed. unfold update. rewrite Hread. simpl.
  rewrite lookup_prune, lookup_connect by done.
  by destruct (instances !! id).
Qed.

End UpdateFacts.

(** ** Paging and the live set *)

Section PagingFacts.

Implicit Types (ids page : list string) (live : gset string)
  (instances : gmap string ec2Instance) (describe : list string → error + describeOutput).

Lemma nextPage_cons id ids page rest :
  nextPage (id :: ids) = (page, rest) →
  id :: ids = page ++ rest ∧ (0 < length page ≤ ec2MaxFilter)%nat
  ∧ (length rest < length (id :: ids))%nat.
Proof.
  unfold nextPage. generalize ec2MaxFilter (eq_refl : ec2MaxFilter = 200%nat).
  intros size Hsize.
  case_decide as Hlen; intros Heq; apply pair_equal_spec in Heq as [<- <-].
  - rewrite take_drop, length_take, length_drop. cbn [length] in *.
    split; [done | lia].
  - rewrite app_nil_r. cbn [length] in *. split; [done | lia].
Qed.

(** The pages are the ids, in order, cut into runs of at most
    [ec2MaxFilter]. *)
Lemma pages_cover fuel ids :
  (length ids ≤ fuel)%nat →
  concat (pages fuel ids) = ids
  ∧ Forall (λ page, (0 < length page ≤ ec2MaxFilter)%nat) (pages fuel ids).
Proof.
  revert ids. induction fuel as [|fuel IH]; intros [|id ids] Hlen;
    simpl in Hlen; try lia; try (by split; [done | constructor]).
  cbn [pages]. destruct (nextPage (id :: ids)) as [page rest] eqn:Hnext.
  apply nextPage_cons in Hnext as (Heq & Hpage & Hrest).
  destruct (IH rest) as [Hconcat Hall]; [simpl in Hrest; lia |].
  split.
  - simpl. by rewrite Hconcat.
  - by constructor.
Qed.

(** The pages do not depend on the fuel, once there is enough. *)
Lemma pages_enough fuel fuel' ids :
  (length ids ≤ fuel)%nat → (length ids ≤ fuel')%nat →
  pages fuel ids = pages fuel' ids.
Proof.
  revert fuel' ids. induction fuel as [|fuel IH]; intros [|fuel'] [|id ids] H1 H2;
    simpl in H1, H2; try lia; try done.
  cbn [pages]. destruct (nextPage (id :: ids)) as [page rest] eqn:Hnext.
  apply nextPage_cons in Hnext as (_ & _ & Hrest). simpl in Hrest.
  f_equal. apply IH; lia.
Qed.

Lemma describePages_enough fuel fuel' describe instances ids live :
  (length ids ≤ fuel)%nat → (length ids ≤ fuel')%nat →
  describePages fuel describe instances ids live
  = describePages fuel' describe instances ids live.
Proof.
  revert fuel' ids live.
  induction fuel as [|fuel IH]; intros [|fuel'] [|id ids] live H1 H2;
    simpl in H1, H2; try lia; try done.
  cbn [describePages]. destruct (nextPage (id :: ids)) as [page rest] eqn:Hnext.
  apply nextPage_cons in Hnext as (_ & _ & Hrest). simpl in Hrest.
  destruct (describe page); [done |]. apply IH; lia.
Qed.

Lemma elem_of_markLive_reservation instances live resv id :
  id ∈ foldl (λ live inst,
                if decide (instances !! InstanceId inst = None) then live
                else if down (StateName inst) then live
                else {[InstanceId inst]} ∪ live) live resv
  ↔ id ∈ live ∨ ∃ inst, inst ∈ resv ∧ InstanceId inst = id
                  ∧ is_Some (instances !! id) ∧ down (StateName inst) = false.
Proof.
  revert live. induction resv as [|inst resv IH]; intros live; cbn [foldl].
  - split; [by left | intros [? | (inst & Hin & _)]; [done | by apply elem_of_nil in Hin]].
  - rewrite IH. split.
    + intros [Hlive | (inst' & Hin & Hrest)].
      * case_decide as Hnone; [by left |].
        destruct (down (StateName inst)) eqn:Hdown; [by left |].
        apply elem_of_union in Hlive as [Hnew | Hlive]; [| by left].
        apply elem_of_singleton in Hnew as ->. right. exists inst.
        split; [by left |]. repeat split; [| done].
        by apply not_eq_None_Some.
      * right. exists inst'. split; [by right | done].
    + intros [Hlive | (inst' & Hin & Hid & Hsome & Hdown)].
      * left. case_decide; [done |]. destruct (down _); [done |].
        apply elem_of_union. by right.
      * apply elem_of_cons in Hin as [-> | Hin].
        -- left. rewrite Hid. rewrite decide_False by (by apply not_eq_None_Some).
           rewrite Hdown. apply elem_of_union. left. by apply elem_of_singleton.
        -- right. by exists inst'.
Qed.

Lemma elem_of_markLive instances live resp id :
  id ∈ markLive instances live resp
  ↔ id ∈ live ∨ ∃ inst, inst ∈ concat resp ∧ InstanceId inst = id
                  ∧ is_Some (instances !! id) ∧ down (StateName inst) = false.
Proof.
  unfold markLive. revert live.
  induction resp as [|resv resp IH]; intros live; cbn [foldl concat].
  - split; [by left | intros [? | (inst & Hin & _)]; [done | by apply elem_of_nil in Hin]].
  - rewrite IH, elem_of_markLive_reservation. split.
    + intros [[Hlive | (inst & Hin & Hrest)] | (inst & Hin & Hrest)].
      * by left.
      * right. exists inst. split; [apply elem_of_app; by left | done].
      * right. exists inst. split; [apply elem_of_app; by right | done].
    + intros [Hlive | (inst & Hin & Hrest)]; [by left; left |].
      apply elem_of_app in Hin as [Hin | Hin].
      * left. right. by exists inst.
      * right. by exists inst.
Qed.

(** A failure of the paging loop is the failure of one of its pages. *)
Lemma describePages_inl fuel describe instances ids live err :
  describePages fuel describe instances ids live = inl err →
  ∃ page, page ∈ pages fuel ids ∧ describe page = inl err.
Proof.
  revert ids live. induction fuel as [|fuel IH]; intros [|id ids] live;
    cbn [describePages pages]; try done.
  destruct (nextPage (id :: ids)) as [page rest].
  destruct (describe page) as [err' | resp] eqn:Hpage.
  - intros [= ->]. exists page. split; [by left | done].
  - intros (page' & Hin & Hfail)%IH. exists page'. split; [by right | done].
Qed.

(** When a page fails, so does the loop. *)
Lemma describePages_fails fuel describe instances ids live page err :
  (length ids ≤ fuel)%nat →
  page ∈ pages fuel ids → describe page = inl err →
  ∃ err', describePages fuel describe instances ids live = inl err'.
Proof.
  revert ids live. induction fuel as [|fuel IH]; intros [|id ids] live Hlen;
    cbn [describePages pages]; try (by intros ?%elem_of_nil).
  destruct (nextPage (id :: ids)) as [page' rest] eqn:Hnext.
  apply nextPage_cons in Hnext as (_ & _ & Hrest). simpl in Hrest, Hlen.
  intros [-> | Hin]%elem_of_cons Hfail.
  - rewrite Hfail. by eexists.
  - destruct (describe page'); [by eexists |].
    apply (IH rest); [lia | done | done].
Qed.

(** When every page is answered, the loop returns the live set: the ids
    of the durable set that some answer lists in a state that is not
    down. *)
Lemma describePages_inr fuel describe instances ids live :
  (length ids ≤ fuel)%nat →
  (∀ page, page ∈ pages fuel ids → ∃ resp, describe page = inr resp) →
  ∃ live', describePages fuel describe instances ids live = inr live'
    ∧ ∀ id, id ∈ live' ↔
        id ∈ live ∨ ∃ inst, inst ∈ described describe (pages fuel ids)
                      ∧ InstanceId inst = id ∧ is_Some (instances !! id)
                      ∧ down (StateName inst) = false.
Proof.
  revert ids live. induction fuel as [|fuel IH]; intros [|id ids] live Hlen Hok;
    simpl in Hlen; try lia; cbn [describePages pages].
  1,2: exists live; split; [done |]; intros id'; split; [by left |];
       intros [? | (inst & Hin & _)]; [done | by apply elem_of_nil in Hin].
  cbn [pages] in Hok.
  destruct (nextPage (id :: ids)) as [page rest] eqn:Hnext.
  apply nextPage_cons in Hnext as (_ & _ & Hrest). simpl in Hrest.
  destruct (Hok page) as [resp Hresp]; [by left |]. rewrite Hresp.
  destruct (IH rest (markLive instances live resp)) as (live' & Hrun & Hlive');
    [lia | intros page' Hin; apply Hok; by right |].
  exists live'. split; [done |]. intros id'.
  rewrite Hlive', elem_of_markLive. unfold described. cbn [flat_map].
  rewrite Hresp. split.
  - intros [[Hl | (inst & Hin & Hrest')] | (inst & Hin & Hrest')].
    + by left.
    + right. exists inst. split; [apply elem_of_app; by left | done].
    + right. exists inst. split; [apply elem_of_app; by right | done].
  - intros [Hl | (inst & Hin & Hrest')]; [by left; left |].
    apply elem_of_app in Hin as [Hin | Hin].
    + left. right. by exists inst.
    + right. by exists inst.
Qed.

Lemma elem_of_keys instances id :
  id ∈ keys instances ↔ is_Some (instances !! id).
Proof.
  unfold keys. rewrite list_elem_of_fmap. split.
  - intros ([id' inst] & -> & Hin). apply elem_of_map_to_list in Hin. by exists inst.
  - intros [inst Hid]. exists (id, inst). split; [done |].
    by apply elem_of_map_to_list.
Qed.

Lemma NoDup_keys instances : NoDup (keys instances).
Proof. apply NoDup_fst_map_to_list. Qed.

Lemma elem_of_range rangeOf instances id :
  rangeOf instances ≡ₚ keys instances →
  id ∈ rangeOf instances ↔ is_Some (instances !! id).
Proof. intros ->. apply elem_of_keys. Qed.

Lemma elem_of_deadIds rangeOf instances live id :
  rangeOf instances ≡ₚ keys instances →
  id ∈ deadIds rangeOf instances live ↔ is_Some (instances !! id) ∧ id ∉ live.
Proof.
  intros Hrange. unfold deadIds.
  rewrite list_elem_of_filter, (elem_of_range _ _ _ Hrange). tauto.
Qed.

(** The first page that fails ends the loop with its error. *)
Lemma describePages_first_failure fuel describe instances ids live
    before page after err :
  pages fuel ids = before ++ page :: after →
  (∀ p, p ∈ before → ∃ resp, describe p = inr resp) →
  describe page = inl err →
  describePages fuel describe instances ids live = inl err.
Proof.
  revert fuel ids live.
  induction before as [|p before IH]; intros [|fuel] [|id ids] live;
    cbn [pages describePages app]; try done;
    destruct (nextPage (id :: ids)) as [page' rest]; intros [= -> Hrest] Hok Hfail.
  - by rewrite Hfail.
  - destruct (Hok p) as [resp ->]; [by left |].
    apply (IH _ _ _ Hrest); [| done]. intros p' Hin. apply Hok. by right.
Qed.

(** Instances that are not in the durable set do not change the live
    set. *)
Lemma markLive_own instances live resp :
  markLive instances live
    (filter (λ inst, is_Some (instances !! InstanceId inst)) <$> resp)
  = markLive instances live resp.
Proof.
  apply set_eq. intros id. rewrite !elem_of_markLive.
  split; intros [Hl | (inst & Hin & Hid & Hsome & Hdown)]; try (by left); right;
    exists inst; (split; [| done]).
  - apply elem_of_concat in Hin as (resv & Hin & Hresv).
    apply list_elem_of_fmap in Hresv as (resv' & -> & Hresv').
    apply list_elem_of_filter in Hin as [_ Hin].
    apply elem_of_concat. by exists resv'.
  - apply elem_of_concat in Hin as (resv & Hin & Hresv).
    apply elem_of_concat.
    exists (filter (λ inst, is_Some (instances !! InstanceId inst)) resv).
    split; [| by apply list_elem_of_fmap_2].
    apply list_elem_of_filter. split; [by rewrite Hid | done].
Qed.

Lemma describePages_own fuel describe instances ids live :
  describePages fuel (ownOnly instances describe) instances ids live
  = describePages fuel describe instances ids live.
Proof.
  revert ids live. induction fuel as [|fuel IH]; intros [|id ids] live;
    cbn [describePages]; try done.
  destruct (nextPage (id :: ids)) as [page rest]. unfold ownOnly at 1.
  destruct (describe page) as [err | resp]; [done |].
  by rewrite markLive_own.
Qed.

End PagingFacts.

(** ** The reconciler *)

Section ReconcileFacts.

Context {Pool instanceState : Type}.
Variable client_New : string → option Pool.
Variable rangeOf : gmap string ec2Instance → list string.

Implicit Types (c : Cluster Pool instanceState)
  (instances : gmap string ec2Instance) (live : gset string).

Lemma File_updateState c upd :
  File (updateState client_New c upd)
  = (Marshal (File c) (upd (durable (File c)))).1.
Proof.
  unfold updateState, durable.
  destruct (Marshal _ _) as [f e]. by rewrite File_update.
Qed.

Lemma MaxInstances_updateState c upd :
  MaxInstances (updateState client_New c upd) = MaxInstances c.
Proof.
  unfold updateState. destruct (Marshal _ _) as [f e].
  by rewrite MaxInstances_update.
Qed.

(** A write replaces the durable set, unless the store fails. *)
Lemma durable_Marshal f instances :
  durable (Marshal f instances).1
  = if decide (readErr f = None ∧ writeErr f = None) then instances
    else durable f.
Proof.
  unfold Marshal, durable, Unmarshal. case_decide as H.
  - destruct H as [Hr Hw]. rewrite Hw. simpl. by rewrite Hr.
  - destruct (writeErr f) eqn:Hw; simpl; [done |].
    destruct (readErr f) eqn:Hr; [done |]. by destruct H.
Qed.

Lemma lookup_durable_remove c ids id :
  durable (File (remove client_New c ids)) !! id
  = if decide (writeErr (File c) = None ∧ id ∈ ids) then None
    else durable (File c) !! id.
Proof.
  unfold remove. rewrite File_updateState, durable_Marshal.
  destruct (decide (readErr (File c) = None ∧ writeErr (File c) = None))
    as [[Hr Hw] | Hfail].
  - rewrite lookup_foldl_delete.
    destruct (decide (id ∈ ids)); case_decide as H; try done.
    + destruct H. done.
    + by destruct H.
  - case_decide as H; [| done]. destruct H as [Hw Hin].
    unfold durable, Unmarshal. destruct (readErr (File c)); [done |].
    by destruct Hfail.
Qed.

Lemma durable_remove_subseteq c ids :
  durable (File (remove client_New c ids)) ⊆ durable (File c).
Proof.
  apply map_subseteq_spec. intros id inst.
  rewrite lookup_durable_remove. by case_decide.
Qed.

(** An error from [reconcile] comes with the cluster as it was. *)
Lemma reconcile_error c c' err :
  reconcile client_New rangeOf c = (c', Some err) → c' = c.
Proof.
  unfold reconcile. destruct (Unmarshal (File c)) as [e | instances].
  - case_decide; by intros [= <-].
  - destruct (describePages _ _ _ _ _); by intros [= <-].
Qed.

Lemma durable_reconcile_subseteq c :
  durable (File (reconcile client_New rangeOf c).1) ⊆ durable (File c).
Proof.
  unfold reconcile. destruct (Unmarshal (File c)) as [e | instances].
  - by case_decide.
  - destruct (describePages _ _ _ _ _); [done |].
    apply durable_remove_subseteq.
Qed.

Lemma MaxInstances_reconcile c :
  MaxInstances (reconcile client_New rangeOf c).1 = MaxInstances c.
Proof.
  unfold reconcile. destruct (Unmarshal (File c)) as [e | instances].
  - by case_decide.
  - destruct (describePages _ _ _ _ _); [done |].
    apply MaxInstances_updateState.
Qed.

Lemma update_setEC2 c describe :
  update client_New (setEC2 c describe) = setEC2 (update client_New c) describe.
Proof.
  unfold update. simpl. by destruct (Unmarshal (File c)).
Qed.

Lemma remove_setEC2 c describe ids :
  remove client_New (setEC2 c describe) ids
  = setEC2 (remove client_New c ids) describe.
Proof.
  unfold remove, updateState. simpl.
  destruct (Marshal _ _) as [f e]. by rewrite <- update_setEC2.
Qed.

End ReconcileFacts.

(** ** The loop *)

Section LoopFacts.

Context {Pool instanceState : Type}.
Variable client_New : string → option Pool.
Variable rangeOf : gmap string ec2Instance → list string.
Variable MinAvailable : instanceState → reflow.Resources → bool → instanceConfig * bool.
Variable Unavailable : instanceState → instanceConfig → instanceState.
Variable ScaledDistance : reflow.Resources → Qc.

Implicit Types (c : Cluster Pool instanceState) (s : loopState Pool instanceState)
  (ws kept notified : list waiter) (todo launched : list instanceConfig)
  (available pending : reflow.Resources).

(** *** The sort *)

Lemma inOrder_spec wi wj :
  inOrder ScaledDistance wi wj
  ↔ (ScaledDistance (Min wi) ≤ ScaledDistance (Min wj))%Qc.
Proof.
  unfold inOrder, less. rewrite bool_decide_eq_false. symmetry. apply Qcle_ngt.
Qed.

#[local] Instance inOrder_total : Total (inOrder ScaledDistance).
Proof.
  intros wi wj. rewrite !inOrder_spec.
  destruct (Qclt_le_dec (ScaledDistance (Min wj)) (ScaledDistance (Min wi)))
    as [Hlt | Hle]; [right; by apply Qclt_le_weak | by left].
Qed.

#[local] Instance inOrder_trans : Transitive (inOrder ScaledDistance).
Proof.
  intros wi wj wk. rewrite !inOrder_spec. apply Qcle_trans.
Qed.

(** [sort.Slice] leaves the same waiters, by ascending scaled distance
    of their [Min]. *)
Lemma sort_Slice_sorted ws :
  sort_Slice ScaledDistance ws ≡ₚ ws
  ∧ StronglySorted
      (λ wi wj, (ScaledDistance (Min wi) ≤ ScaledDistance (Min wj))%Qc)
      (sort_Slice ScaledDistance ws).
Proof.
  split; [apply merge_sort_Permutation |]. unfold sort_Slice.
  induction (StronglySorted_merge_sort (inOrder ScaledDistance) ws)
    as [|w sorted _ IH Hall]; constructor; [done |].
  eapply Forall_impl; [exact Hall |]. intros wj. apply inOrder_spec.
Qed.

(** *** The scan of the waiters *)

Lemma satisfy_Scan ctxErr available ws :
  Scan ctxErr available ws (satisfy ctxErr available ws).1.1
       (satisfy ctxErr available ws).1.2.
Proof.
  revert available. induction ws as [|w ws IH]; intros available; cbn [satisfy].
  - constructor.
  - case_decide as Hctx.
    + by constructor.
    + assert (ctxErr (ctx w) = None) as Hlive by (by destruct (ctxErr (ctx w)); [destruct Hctx |]).
      destruct (reflow.LessEqualAll (Min w) available) eqn:Hle.
      * specialize (IH (reflow.Sub available (reflow.Min (Max w) available))).
        destruct (satisfy ctxErr _ ws) as [[ws' notified] rest]. simpl in *.
        apply Scan_satisfied; [done | | done].
        by apply reflow_facts.LessEqualAll_spec.
      * specialize (IH available).
        destruct (satisfy ctxErr _ ws) as [[ws' notified] rest]. simpl in *.
        apply Scan_kept; [done | | done].
        rewrite <- reflow_facts.LessEqualAll_spec. by rewrite Hle.
Qed.

(** The scan has one outcome. *)
Lemma Scan_satisfy ctxErr available ws kept notified :
  Scan ctxErr available ws kept notified →
  kept = (satisfy ctxErr available ws).1.1
  ∧ notified = (satisfy ctxErr available ws).1.2.
Proof.
  induction 1 as [available | available w ws kept notified Hctx _ [-> ->]
                 | available w ws kept notified Hctx Hle _ [-> ->]
                 | available w ws kept notified Hctx Hle _ [-> ->]];
    cbn [satisfy]; [done | ..].
  - by rewrite decide_True.
  - rewrite decide_False by (by rewrite Hctx; intros ?).
    apply reflow_facts.LessEqualAll_spec in Hle. rewrite Hle.
    by destruct (satisfy ctxErr _ ws) as [[? ?] ?].
  - rewrite decide_False by (by rewrite Hctx; intros ?).
    destruct (reflow.LessEqualAll (Min w) available) eqn:Hle'.
    + destruct Hle. by apply reflow_facts.LessEqualAll_spec.
    + by destruct (satisfy ctxErr _ ws) as [[? ?] ?].
Qed.

(** Only waiters whose context is not done are notified or kept. *)
Lemma Scan_not_done ctxErr available ws kept notified w :
  Scan ctxErr available ws kept notified →
  w ∈ kept ∨ w ∈ notified → w ∈ ws ∧ ctxErr (ctx w) = None.
Proof.
  induction 1 as [available | available w' ws kept notified Hctx _ IH
                 | available w' ws kept notified Hctx Hle _ IH
                 | available w' ws kept notified Hctx Hle _ IH].
  - intros [Hin | Hin]; by apply elem_of_nil in Hin.
  - intros Hin. destruct (IH Hin) as [? ?]. split; [by right | done].
  - intros [Hin | [-> | Hin]%elem_of_cons].
    + destruct (IH (or_introl Hin)) as [? ?]. split; [by right | done].
    + split; [by left | done].
    + destruct (IH (or_intror Hin)) as [? ?]. split; [by right | done].
  - intros [[-> | Hin]%elem_of_cons | Hin].
    + split; [by left | done].
    + destruct (IH (or_introl Hin)) as [? ?]. split; [by right | done].
    + destruct (IH (or_intror Hin)) as [? ?]. split; [by right | done].
Qed.

(** *** The resources of the launches *)

Lemma get_total_app launched launched' key :
  reflow.get (total (launched ++ launched')) key
  = reflow.get (total launched) key + reflow.get (total launched') key.
Proof.
  induction launched as [|config launched IH]; simpl.
  - by rewrite reflow_facts.get_empty.
  - rewrite !reflow_facts.get_Add, IH. lia.
Qed.

Lemma get_total_delete launched k config key :
  launched !! k = Some config →
  reflow.get (total (delete k launched)) key
  = reflow.get (total launched) key - reflow.get (Resources config) key.
Proof.
  revert k. induction launched as [|config' launched IH]; intros [|k] Hk;
    simplify_eq/=.
  - rewrite reflow_facts.get_Add. lia.
  - rewrite !reflow_facts.get_Add, (IH k) by done. lia.
Qed.

(** *** The launch loop *)

Lemma launchAll_spec maxInstances n todo pending npending
    pending' npending' launched :
  launchAll maxInstances n todo pending npending = (pending', npending', launched) →
  ∃ queued,
    todo = launched ++ queued
    ∧ npending' = npending + Z.of_nat (length launched)
    ∧ reflow.equal pending' (reflow.Add pending (total launched))
    ∧ (∀ i, (i < length launched)%nat →
         npending + Z.of_nat i < maxPending
         ∧ n + (npending + Z.of_nat i) < maxInstances)
    ∧ (queued ≠ [] →
         ¬ (npending' < maxPending ∧ n + npending' < maxInstances)).
Proof.
  revert pending npending pending' npending' launched.
  induction todo as [|config todo IH];
    intros pending npending pending' npending' launched; cbn [launchAll].
  - intros [= <- <- <-]. exists [].
    split; [done |]. split; [simpl; lia |].
    split; [intros key; rewrite reflow_facts.get_Add, reflow_facts.get_empty; lia |].
    split; [intros i Hi; simpl in Hi; lia | intros Hq; by destruct Hq].
  - case_bool_decide as Hguard.
    + destruct (launchAll _ _ todo _ _) as [[p np] l] eqn:Hrun.
      intros [= <- <- <-].
      destruct (IH _ _ _ _ _ Hrun) as (queued & -> & -> & Hp & Hguards & Hstop).
      exists queued.
      split; [done |]. split; [simpl length; lia |].
      split; [intros key; cbn [total foldr];
              rewrite (Hp key), !reflow_facts.get_Add; fold (total l); lia |].
      split.
      * intros [|i] Hi; [lia |].
        destruct (Hguards i) as [H1 H2]; [simpl in Hi; lia | lia].
      * intros Hq. specialize (Hstop Hq).
        by replace (npending + Z.of_nat (length (config :: l)))
          with (npending + 1 + Z.of_nat (length l)) by (simpl length; lia).
    + intros [= <- <- <-]. exists (config :: todo).
      split; [done |]. split; [simpl; lia |].
      split; [intros key; rewrite reflow_facts.get_Add, reflow_facts.get_empty; lia |].
      split; [intros i Hi; simpl in Hi; lia |].
      intros _. simpl length. by replace (npending + Z.of_nat 0) with npending by lia.
Qed.

(** *** One turn *)

Lemma File_add c insts :
  File (add client_New c insts)
  = (Marshal (File c)
       (foldl (λ m inst, <[InstanceId inst := inst]> m) (durable (File c)) insts)).1.
Proof. unfold add. by rewrite File_updateState. Qed.

Lemma size_durable_add c inst :
  (size (durable (File (add client_New c [inst]))) ≤ S (size (durable (File c))))%nat.
Proof.
  rewrite File_add, durable_Marshal. case_decide; [| lia]. cbn [foldl].
  rewrite map_size_insert.
  destruct (durable (File c) !! InstanceId inst); unfold id; lia.
Qed.

Lemma size_durable_maintainStep c t :
  (size (durable (File (maintainStep client_New rangeOf c t))) ≤ size (durable (File c)))%nat.
Proof.
  destruct t; simpl.
  - apply map_subseteq_size, durable_reconcile_subseteq.
  - by rewrite File_update.
Qed.

Lemma MaxInstances_maintainStep c t :
  MaxInstances (maintainStep client_New rangeOf c t) = MaxInstances c.
Proof.
  destruct t; simpl; [apply MaxInstances_reconcile | apply MaxInstances_update].
Qed.

(** What the first half of a turn does to the counters. *)
Lemma grow_spec s :
  let s1 := (grow MinAvailable ScaledDistance s).1 in
  cluster s1 = cluster s
  ∧ waiters s1 = sort_Slice ScaledDistance (waiters s)
  ∧ ∃ launched,
      inflight s1 = inflight s ++ launched
      ∧ npending s1 = npending s + Z.of_nat (length launched)
      ∧ reflow.equal (pending s1) (reflow.Add (pending s) (total launched))
      ∧ (launched ≠ [] →
           npending s1 ≤ maxPending
           ∧ Z.of_nat (size (durable (File (cluster s)))) + npending s1
             ≤ MaxInstances (cluster s)).
Proof.
  unfold grow. case_bool_decide as Hpoll; simpl.
  - split; [done |]. split; [done |]. exists [].
    rewrite app_nil_r. split; [done |]. split; [simpl; lia |].
    split; [| done].
    intros key. rewrite reflow_facts.get_Add, reflow_facts.get_empty. lia.
  - destruct (launchAll _ _ _ _ _) as [[p np] launched] eqn:Hrun. simpl.
    split; [done |]. split; [done |]. exists launched.
    destruct (launchAll_spec _ _ _ _ _ _ _ _ Hrun)
      as (queued & _ & -> & Hp & Hguards & _).
    split; [done |]. split; [done |]. split; [done |].
    intros Hne. destruct (Hguards (pred (length launched))) as [H1 H2].
    + destruct launched; [done | simpl; lia].
    + destruct launched; [done |]. simpl length in *. lia.
Qed.

(** What the receipt of a finished launch does to the counters. *)
Lemma receive_done ctxErr s needPoll k err instance s' notified :
  receive client_New Unavailable ctxErr s needPoll (done k err instance)
  = Some (s', notified) →
  ∃ config,
    inflight s !! k = Some config
    ∧ pending s' = reflow.Sub (pending s) (Resources config)
    ∧ npending s' = npending s - 1
    ∧ inflight s' = delete k (inflight s)
    ∧ File (cluster s')
      = match err with
        | Some _ => File (cluster s)
        | None => File (add client_New (cluster s) [instance])
        end
    ∧ MaxInstances (cluster s') = MaxInstances (cluster s).
Proof.
  cbn [receive]. destruct (inflight s !! k) as [config|]; [| done].
  destruct err as [e|].
  - intros [= <- <-]. exists config. simpl. repeat split. by case_decide.
    by case_decide.
  - destruct (satisfy _ _ _) as [[ws n] rest]. intros [= <- <-].
    exists config. simpl. repeat split.
    unfold add. by rewrite MaxInstances_updateState.
Qed.

Lemma receive_other ctxErr s needPoll ev s' notified :
  receive client_New Unavailable ctxErr s needPoll ev = Some (s', notified) →
  (∀ k err instance, ev ≠ done k err instance) →
  cluster s' = cluster s ∧ pending s' = pending s
  ∧ npending s' = npending s ∧ inflight s' = inflight s.
Proof.
  destruct ev as [|k err instance|w]; cbn [receive].
  - destruct needPoll; [| done]. by intros [= <- <-].
  - intros _ Hne. by destruct (Hne k err instance).
  - by intros [= <- <-].
Qed.

(** The accounts of the loop: [npending] counts the launches in flight
    and [pending] sums their resources. *)
Lemma reaches_accounts c s :
  reaches client_New rangeOf MinAvailable Unavailable ScaledDistance c s →
  MaxInstances (cluster s) = MaxInstances c
  ∧ npending s = Z.of_nat (length (inflight s))
  ∧ reflow.equal (pending s) (total (inflight s)).
Proof.
  induction 1 as [| s ctxErr ev s' notified _ (IHmax & IHn & IHp) Hturn
                  | s t _ (IHmax & IHn & IHp)].
  - split; [done |]. split; [done |]. done.
  - unfold turn in Hturn.
    pose proof (grow_spec s) as Hgrow.
    destruct (grow MinAvailable ScaledDistance s) as [s1 needPoll].
    simpl in Hgrow.
    destruct Hgrow as (Hc & _ & launched & Hfl & Hn & Hp & _).
    assert (npending s1 = Z.of_nat (length (inflight s1))) as Hn1.
    { rewrite Hn, Hfl, length_app. lia. }
    assert (reflow.equal (pending s1) (total (inflight s1))) as Hp1.
    { intros key. rewrite (Hp key), Hfl, get_total_app, reflow_facts.get_Add.
      by rewrite (IHp key). }
    destruct ev as [|k err instance|w].
    + apply receive_other in Hturn as (-> & -> & -> & ->); [| done].
      by rewrite Hc.
    + apply receive_done in Hturn as (config & Hk & -> & -> & -> & _ & ->).
      rewrite Hc. split; [done |]. split.
      * rewrite length_delete by done. apply lookup_lt_Some in Hk. lia.
      * intros key. rewrite reflow_facts.get_Sub, (get_total_delete _ _ _ _ Hk).
        by rewrite (Hp1 key).
    + apply receive_other in Hturn as (-> & -> & -> & ->); [| done].
      by rewrite Hc.
  - simpl. by rewrite MaxInstances_maintainStep.
Qed.

(** The caps of the loop: [npending] stays within [maxPending], and the
    durable instances and [npending] together stay within [MaxInstances]
    or the number of durable instances at the start, whichever is
    larger. *)
Lemma reaches_caps c s :
  reaches client_New rangeOf MinAvailable Unavailable ScaledDistance c s →
  npending s ≤ maxPending
  ∧ Z.of_nat (size (durable (File (cluster s)))) + npending s
    ≤ Z.max (MaxInstances c) (Z.of_nat (size (durable (File c)))).
Proof.
  induction 1 as [| s ctxErr ev s' notified Hreach [IHcap IHmax] Hturn
                  | s t Hreach [IHcap IHmax]].
  - simpl. unfold maxPending. lia.
  - apply reaches_accounts in Hreach as (Hmax & Hcount & _).
    unfold turn in Hturn.
    pose proof (grow_spec s) as Hgrow.
    destruct (grow MinAvailable ScaledDistance s) as [s1 needPoll].
    simpl in Hgrow.
    destruct Hgrow as (Hc & _ & launched & Hfl & Hn & _ & Hguard).
    assert (npending s1 ≤ maxPending
            ∧ Z.of_nat (size (durable (File (cluster s1)))) + npending s1
              ≤ Z.max (MaxInstances c) (Z.of_nat (size (durable (File c)))))
      as [Hcap1 Hmax1].
    { rewrite Hc. destruct launched as [|config launched].
      - rewrite Hn. simpl. lia.
      - rewrite <- Hmax. destruct Hguard as [H5 Hn']; [done |]. lia. }
    assert (0 ≤ npending s) as Hpos by lia.
    destruct ev as [|k err instance|w].
    + by apply receive_other in Hturn as (-> & _ & -> & _).
    + apply receive_done in Hturn as (config & Hk & _ & -> & _ & -> & _).
      split; [lia |]. destruct err as [e|]; [lia |].
      pose proof (size_durable_add (cluster s1) instance). lia.
    + by apply receive_other in Hturn as (-> & _ & -> & _).
  - simpl. split; [done |].
    pose proof (size_durable_maintainStep (cluster s) t). lia.
Qed.

End LoopFacts.

(** ** Allocate *)

Section AllocateFacts.

Context {Alloc : Type}.

Implicit Types (evs before after : list (allocEvent Alloc)).

(** While the attempts fail, the loop is still selecting. *)
Lemma retry_failed req evs :
  Forall failedAttempt evs → (retry req evs).1 = selecting.
Proof.
  induction 1 as [|ev evs Hev _ IH]; [done |].
  destruct ev as [err | [err | alloc] | [err | alloc]]; try done;
    cbn [retry]; by destruct (retry req evs).
Qed.

(** Failed attempts before an event do not change what the loop returns
    on it. *)
Lemma retry_after_failed req before evs :
  Forall failedAttempt before →
  (retry req (before ++ evs)).1 = (retry req evs).1.
Proof.
  induction 1 as [|ev before Hev _ IH]; [done |].
  destruct ev as [err | [err | alloc] | [err | alloc]]; try done;
    cbn [retry app]; by destruct (retry req (before ++ evs)).
Qed.

(** A return of the loop is the receipt of a successful attempt or of
    the end of the context, after failed attempts only. *)
Lemma retry_returned req evs alloc err :
  (retry req evs).1 = returned alloc err →
  ∃ before ev after,
    evs = before ++ ev :: after ∧ Forall failedAttempt before
    ∧ ((∃ a, (ev = needch (inr a) ∨ ev = tickerC (inr a))
             ∧ alloc = Some a ∧ err = None)
       ∨ (∃ e, ev = ctxDone e ∧ alloc = None ∧ err = Some e)).
Proof.
  induction evs as [|ev evs IH]; [done |].
  destruct ev as [e | [e | a] | [e | a]]; cbn [retry].
  - intros [= <- <-]. exists [], (ctxDone e), evs.
    split; [done |]. split; [constructor |]. right. by exists e.
  - destruct (retry req evs) as [o effs]. simpl in *. intros Ho.
    destruct (IH Ho) as (before & ev & after & -> & Hfailed & Hev).
    exists (needch (inl e) :: before), ev, after.
    split; [done |]. split; [by constructor | done].
  - intros [= <- <-]. exists [], (needch (inr a)), evs.
    split; [done |]. split; [constructor |]. left. exists a. auto.
  - destruct (retry req evs) as [o effs]. simpl in *. intros Ho.
    destruct (IH Ho) as (before & ev & after & -> & Hfailed & Hev).
    exists (tickerC (inl e) :: before), ev, after.
    split; [done |]. split; [by constructor | done].
  - intros [= <- <-]. exists [], (tickerC (inr a)), evs.
    split; [done |]. split; [constructor |]. left. exists a. auto.
Qed.

End AllocateFacts.

(** * The properties of the cluster *)

Section Reconciling.

Context {Pool instanceState : Type}.
Variable client_New : string → option Pool.
Variable rangeOf : gmap string ec2Instance → list string.

Implicit Types (c : Cluster Pool instanceState)
  (instances : gmap string ec2Instance).

(** C3.  A reconcile cycle over a durable set that is read and written
    without fault, and whose describe calls are all answered, in
    whatever order the ids of the map are ranged over: the ids of the
    durable set, each once, are queried in pages of at most
    [ec2MaxFilter] = 200 ids; the cycle returns no error; an entry is
    gone from the durable set afterwards when it is dead (reported
    shutting-down, terminated, stopping or stopped, or absent from the
    answers), and every other entry, and only those, is there as it
    was. *)
Theorem reconcile_removes_exactly_the_dead c instances :
  Unmarshal (File c) = inr instances →
  writeErr (File c) = None →
  rangeOf instances ≡ₚ keys instances →
  (∀ page, page ∈ cyclePages (rangeOf instances) →
           ∃ resp, EC2 c page = inr resp) →
  let insts := described (EC2 c) (cyclePages (rangeOf instances)) in
  ec2MaxFilter = 200%nat
  ∧ concat (cyclePages (rangeOf instances)) = rangeOf instances
  ∧ NoDup (rangeOf instances)
  ∧ (∀ id, id ∈ rangeOf instances ↔ is_Some (instances !! id))
  ∧ Forall (λ page, (0 < length page ≤ ec2MaxFilter)%nat)
           (cyclePages (rangeOf instances))
  ∧ ∃ c', reconcile client_New rangeOf c = (c', None)
      ∧ ∀ id,
          (dead instances insts id → durable (File c') !! id = None)
          ∧ (¬ dead instances insts id →
             durable (File c') !! id = instances !! id).
Proof.
  intros Hread Hwrite Hrange Hok insts.
  destruct (pages_cover (length (rangeOf instances)) (rangeOf instances))
    as [Hconcat Hsizes]; [done |].
  split; [done |]. split; [done |].
  split; [rewrite Hrange; apply NoDup_keys |].
  split; [intros id; by apply elem_of_range |]. split; [done |].
  destruct (describePages_inr (length (rangeOf instances)) (EC2 c) instances
              (rangeOf instances) ∅) as (live & Hrun & Hlive); [done | done |].
  unfold reconcile. rewrite Hread, Hrun.
  eexists. split; [done |]. intros id.
  rewrite lookup_durable_remove, (Unmarshal_durable _ _ Hread).
  fold (cyclePages (rangeOf instances)) in Hlive. fold insts in Hlive.
  split.
  - intros [Hsome Hdead]. rewrite decide_True; [done |].
    split; [done |]. apply elem_of_deadIds; [done |]. split; [done |].
    rewrite Hlive. intros [Hin | (inst & Hin & Hid & _ & Hdown)].
    + by apply not_elem_of_empty in Hin.
    + destruct Hdead as [[_ Hall] | Habs].
      * rewrite (Hall inst Hin Hid) in Hdown. done.
      * by apply (Habs inst Hin).
  - intros Hnot. case_decide as Hcase; [| done]. destruct Hcase as [_ Hin].
    apply elem_of_deadIds in Hin as [Hsome Hnl]; [| done]. destruct Hnot.
    split; [done |].
    destruct (decide (Exists (λ inst, InstanceId inst = id) insts)) as [Hex | Hno].
    + left. split.
      * apply Exists_exists in Hex as (inst & Hin & Hid). by exists inst.
      * intros inst Hin Hid. destruct (down (StateName inst)) eqn:Hdown; [done |].
        destruct Hnl. apply Hlive. right. by exists inst.
    + right. intros inst Hin Hid. apply Hno, Exists_exists. by exists inst.
Qed.

(** C8.  When a describe call of a reconcile cycle fails, after the
    pages before it were answered, [reconcile] returns the error of that
    call and the cluster is as it was: nothing is removed from the
    durable set, and [maintain] goes on from the same state. *)
Theorem reconcile_describe_failure_changes_nothing c instances
    before page after err :
  Unmarshal (File c) = inr instances →
  cyclePages (rangeOf instances) = before ++ page :: after →
  (∀ p, p ∈ before → ∃ resp, EC2 c p = inr resp) →
  EC2 c page = inl err →
  reconcile client_New rangeOf c = (c, Some err)
  ∧ durable (File (reconcile client_New rangeOf c).1) = instances
  ∧ maintainStep client_New rangeOf c ec2Tick = c.
Proof.
  intros Hread Hpages Hbefore Hfail.
  assert (reconcile client_New rangeOf c = (c, Some err)) as Hrec.
  { unfold reconcile. rewrite Hread.
    by rewrite (describePages_first_failure _ _ _ _ _ _ _ _ _ Hpages Hbefore Hfail). }
  split; [done |]. unfold maintainStep. rewrite Hrec. simpl.
  split; [by apply Unmarshal_durable | done].
Qed.

(** C10.  Whatever a reconcile cycle returns, every entry of the durable
    set afterwards is an entry of the durable set before; the live set
    and the ids handed to [remove] are ids of the durable set; and the
    cycle ends the same when the provider's answers are stripped of the
    instances that are not in the durable set. *)
Theorem reconcile_only_removes_own_ids c :
  durable (File (reconcile client_New rangeOf c).1) ⊆ durable (File c)
  ∧ (∀ instances live id,
       rangeOf instances ≡ₚ keys instances →
       describePages (length (rangeOf instances)) (EC2 c) instances
                     (rangeOf instances) ∅ = inr live →
       (id ∈ live → is_Some (instances !! id))
       ∧ (id ∈ deadIds rangeOf instances live → is_Some (instances !! id)))
  ∧ (let describe := ownOnly (durable (File c)) (EC2 c) in
     reconcile client_New rangeOf (setEC2 c describe)
     = (setEC2 (reconcile client_New rangeOf c).1 describe,
        (reconcile client_New rangeOf c).2)).
Proof.
  split; [apply durable_reconcile_subseteq |]. split.
  - intros instances live id Hrange Hrun. split.
    + intros Hin.
      destruct (describePages_inr (length (rangeOf instances)) (EC2 c) instances
                  (rangeOf instances) ∅) as (live' & Hrun' & Hlive); [done | |].
      * intros page Hpage.
        destruct (EC2 c page) as [err | resp] eqn:Hresp; [| by eexists].
        destruct (describePages_fails _ _ instances _ ∅ _ _ (le_n _) Hpage Hresp)
          as [err' Hfail].
        rewrite Hfail in Hrun. done.
      * rewrite Hrun in Hrun'. injection Hrun' as <-.
        apply Hlive in Hin as [Hin | (inst & _ & _ & Hsome & _)]; [| done].
        by apply not_elem_of_empty in Hin.
    + intros Hin. by apply elem_of_deadIds in Hin as [Hsome _].
  - intros describe. unfold reconcile. simpl.
    destruct (Unmarshal (File c)) as [err | instances] eqn:Hread.
    + by case_decide.
    + unfold describe. rewrite (Unmarshal_durable _ _ Hread).
      rewrite describePages_own.
      destruct (describePages _ _ _ _ _); [done |]. simpl.
      by rewrite remove_setEC2.
Qed.

(** C4, amended.  A rebuild that cannot read the durable set leaves the
    cluster as it is.  After a rebuild that reads it, with every entry
    stored under its own instance id, the pool map has no handle for an
    id without a durable entry, and for a durable entry it has the live
    handle that was there, or else the one made from the address of the
    instance when making it succeeds; the mux serves the handles of the
    pool map. *)
Theorem update_rebuilds_the_capacity_view c :
  (∀ err, Unmarshal (File c) = inl err → update client_New c = c)
  ∧ (∀ instances,
       Unmarshal (File c) = inr instances → keyed instances →
       let c' := update client_New c in
       durable (File c') = instances
       ∧ Mux c' = vals (pools c')
       ∧ ∀ id,
           match instances !! id with
           | None => pools c' !! id = None
           | Some inst =>
               (∀ h, pools c !! id = Some (Some h) →
                     pools c' !! id = Some (Some h))
               ∧ (∀ h, isNil (pools c !! id) = true →
                       client_New (baseurl inst) = Some h →
                       pools c' !! id = Some (Some h))
           end).
Proof.
  split; [intros err; apply update_unreadable |].
  intros instances Hread Hkeyed c'. split; [| split].
  - unfold c'. rewrite File_update. by apply Unmarshal_durable.
  - unfold c', update. by rewrite Hread.
  - intros id. unfold c'.
    rewrite (lookup_pools_update _ _ _ _ Hread Hkeyed).
    destruct (instances !! id) as [inst|]; [| done]. split.
    + by intros h ->.
    + by intros h -> ->.
Qed.

End Reconciling.

(** ** The reconciler and the capacity view on the example clusters *)

Section ReconcilingExamples.

Import Example.

(** A closed proposition that its decision procedure evaluates to
    true. *)
Local Ltac evaluate :=
  match goal with
  | |- ?P => apply (bool_decide_unpack P); vm_compute; exact I
  end.

(** The fleet of 450 instances is reconciled in three pages; instance 0
    is running and stays, instance 1 is stopped and instance 2 is not
    listed: both go. *)
Lemma reconcile_removes_exactly_the_dead_witness :
  let c := clusterOf fleet describeFleet in
  length <$> cyclePages (keys (durable fleet)) = [200; 200; 50]%nat
  ∧ ∃ c', reconcile client_New keys c = (c', None)
      ∧ durable (File c') !! id 0 = durable fleet !! id 0
      ∧ durable (File c') !! id 1 = None
      ∧ durable (File c') !! id 2 = None.
Proof.
  intros c. split; [by vm_compute |].
  destruct (reconcile_removes_exactly_the_dead client_New keys c (durable fleet))
    as (_ & _ & _ & _ & _ & c' & Hrec & Hdead).
  - reflexivity.
  - reflexivity.
  - reflexivity.
  - intros page Hpage. eexists. reflexivity.
  - exists c'. split; [exact Hrec |]. split; [| split].
    + apply (Hdead (id 0)). evaluate.
    + apply (Hdead (id 1)). evaluate.
    + apply (Hdead (id 2)). evaluate.
Defined.

(** The provider fails on the second of the three pages of the fleet:
    the error comes back and the 450 entries stay. *)
Lemma reconcile_describe_failure_changes_nothing_witness :
  let i := default "" (keys (durable fleet) !! 200%nat) in
  let c := clusterOf fleet (failingOn i) in
  reconcile client_New keys c = (c, Some (OtherError "RequestLimitExceeded"))
  ∧ durable (File (reconcile client_New keys c).1) = durable fleet
  ∧ maintainStep client_New keys c ec2Tick = c.
Proof.
  intros i c.
  apply (reconcile_describe_failure_changes_nothing client_New keys c (durable fleet)
           [take 200 (keys (durable fleet))]
           (take 200 (drop 200 (keys (durable fleet))))
           [drop 400 (keys (durable fleet))]).
  - reflexivity.
  - by vm_compute.
  - intros p Hp. apply list_elem_of_singleton in Hp as ->. eexists.
    by vm_compute.
  - by vm_compute.
Defined.

(** On the cluster of three: the foreign instance [i-9] of the answers
    is neither live nor dead. *)
Lemma reconcile_only_removes_own_ids_witness :
  let c := clusterOf three describe in
  durable (File (reconcile client_New keys c).1) ⊆ durable three
  ∧ ("i-9" ∈ ({[ "i-1" ]} : gset string) → is_Some (durable three !! "i-9"))
  ∧ ("i-9" ∈ deadIds keys (durable three) {[ "i-1" ]}
     → is_Some (durable three !! "i-9")).
Proof.
  intros c.
  destruct (reconcile_only_removes_own_ids client_New keys c) as (Hsub & Hown & _).
  split; [exact Hsub |].
  apply (Hown (durable three) {[ "i-1" ]} "i-9"); [reflexivity | by vm_compute].
Defined.

(** On the cluster of three, the rebuild makes the handle of [i-1] from
    its address and has nothing for [i-7]. *)
Lemma update_rebuilds_the_capacity_view_witness :
  let c := clusterOf three describe in
  pools (update client_New c) !! "i-1" = Some (Some "https://h1:9000/v1/")
  ∧ pools (update client_New c) !! "i-7" = None.
Proof.
  intros c.
  destruct (update_rebuilds_the_capacity_view client_New c) as [_ Hread].
  destruct (Hread (durable three)) as (_ & _ & Hpools).
  - reflexivity.
  - evaluate.
  - split.
    + apply (Hpools "i-1"); reflexivity.
    + apply (Hpools "i-7").
Defined.

(** C4 fails as stated: the durable entry of an instance whose handle
    cannot be made has no live handle after the rebuild. *)
Lemma update_one_live_handle_counterexample :
  ¬ oneLiveHandlePerEntry
      (update client_New
         (clusterOf (file [instance "i-4" "unreachable" "running"]) describe)).
Proof.
  intros Hone. specialize (Hone "i-4"). vm_compute in Hone.
  destruct Hone as [h Hh]. discriminate Hh.
Qed.

End ReconcilingExamples.

Section Growing.

Context {Pool instanceState : Type}.
Variable client_New : string → option Pool.
Variable rangeOf : gmap string ec2Instance → list string.
Variable MinAvailable : instanceState → reflow.Resources → bool → instanceConfig * bool.
Variable Unavailable : instanceState → instanceConfig → instanceState.
Variable ScaledDistance : reflow.Resources → Qc.

Implicit Types (c : Cluster Pool instanceState) (s : loopState Pool instanceState).

(** What [pack] plans for two waiters of which the first fits an
    instance and the two together fit none: one launch, of whatever
    configuration the failed selection returned; the specification
    plans the configuration found for the first waiter and goes on
    from the second. *)
Lemma pack_breaking_pair ist spot w1 w2 best wbest :
  MinAvailable ist (reflow.Add ∅ (Min w1)) spot = (best, true) →
  MinAvailable ist (reflow.Add (reflow.Add ∅ (Min w1)) (Min w2)) spot
  = (wbest, false) →
  pack MinAvailable ist spot [w1; w2] = [wbest]
  ∧ pack_spec MinAvailable 2 ist spot [w1; w2]
    = best :: pack_spec MinAvailable 1 ist spot [w2].
Proof. intros H1 H2. cbn [pack pack_spec]. by rewrite H1, H2. Qed.

(** The packing of the specification has enough fuel with the number of
    waiters. *)
Lemma pack_spec_enough fuel fuel' ist spot ws :
  (length ws ≤ fuel)%nat → (length ws ≤ fuel')%nat →
  pack_spec MinAvailable fuel ist spot ws
  = pack_spec MinAvailable fuel' ist spot ws.
Proof.
  revert fuel' ws. induction fuel as [|fuel IH]; intros [|fuel'] [|w ws] H1 H2;
    simpl in H1, H2; try lia; try done.
  cbn [pack_spec]. destruct (MinAvailable ist _ spot) as [best [|]].
  - assert (length ws ≤ fuel)%nat as Hlen by lia.
    assert (length ws ≤ fuel')%nat as Hlen' by lia.
    generalize (reflow.Add ∅ (Min w)). clear H1 H2. revert best Hlen Hlen'.
    induction ws as [|w' ws IHws]; intros best Hlen Hlen' need; [done |].
    destruct (MinAvailable ist _ spot) as [wbest [|]].
    + apply IHws; simpl in *; lia.
    + f_equal. by apply IH.
  - apply IH; lia.
Qed.

(** C2.  When [loop] receives from [done] a launch in flight that came
    up without error, and the state file can be written: the instance
    is an entry of the durable set afterwards, the capacity view is
    rebuilt over it, and the waiters are scanned in order from the
    resources of the instance's configuration: a waiter whose context
    is done is dropped and not notified; any other waiter whose [Min]
    is within what is left is notified and removed, and
    [min(Max, left)] is taken off what is left; every other waiter is
    kept.  The scan has this one outcome. *)
Theorem done_instance_satisfies_the_waiters ctxErr s needPoll k config instance :
  inflight s !! k = Some config →
  writeErr (File (cluster s)) = None →
  ∃ s' notified,
    receive client_New Unavailable ctxErr s needPoll (done k None instance)
    = Some (s', notified)
    ∧ content (File (cluster s'))
      = Some (<[InstanceId instance := instance]> (durable (File (cluster s))))
    ∧ cluster s' = update client_New (setFile (cluster s) (File (cluster s')))
    ∧ Scan ctxErr (Resources config) (waiters s) (waiters s') notified
    ∧ (∀ kept notified',
         Scan ctxErr (Resources config) (waiters s) kept notified' →
         kept = waiters s' ∧ notified' = notified)
    ∧ (∀ w, w ∈ waiters s → ctxErr (ctx w) ≠ None →
            (w ∉ notified) ∧ (w ∉ waiters s')).
Proof.
  intros Hk Hwrite. cbn [receive]. rewrite Hk.
  pose proof (satisfy_Scan ctxErr (Resources config) (waiters s)) as Hscan.
  pose proof (Scan_satisfy ctxErr (Resources config) (waiters s)) as Hone.
  destruct (satisfy ctxErr (Resources config) (waiters s)) as [[ws notified] rest].
  simpl in Hscan, Hone.
  eexists _, notified. split; [done |]. simpl.
  assert (File (add client_New (cluster s) [instance])
          = {| content := Some (<[InstanceId instance := instance]>
                                  (durable (File (cluster s))));
               readErr := readErr (File (cluster s)); writeErr := None |}) as Hfile.
  { rewrite File_add. cbn [foldl]. by rewrite Marshal_ok. }
  split; [by rewrite Hfile |]. split.
  - rewrite Hfile. unfold add, updateState. cbn [foldl].
    fold (durable (File (cluster s))). by rewrite Marshal_ok.
  - split; [done |]. split; [apply Hone |].
    intros w Hin Hdone. split; intros Hin'.
    + destruct (Scan_not_done _ _ _ _ _ w Hscan (or_intror Hin')) as [_ Hnone]. done.
    + destruct (Scan_not_done _ _ _ _ _ w Hscan (or_introl Hin')) as [_ Hnone]. done.
Qed.

(** C5.  In every state that [loop] reaches: [npending] is the number of
    launches in flight, which is at most [maxPending] = 5; the durable
    instances and the launches in flight together are at most
    [MaxInstances] when the durable set was within [MaxInstances] at the
    start, and at most the larger of the two otherwise.  The launch loop
    launches the first planned configurations, each of them when
    [npending < maxPending] and [n + npending < MaxInstances], and stops
    at the first one for which this fails: the configurations after it
    are not launched in this turn. *)
Theorem loop_respects_the_caps c s :
  reaches client_New rangeOf MinAvailable Unavailable ScaledDistance c s →
  maxPending = 5
  ∧ npending s = Z.of_nat (length (inflight s))
  ∧ (length (inflight s) ≤ 5)%nat
  ∧ (Z.of_nat (size (durable (File c))) ≤ MaxInstances c →
     Z.of_nat (size (durable (File (cluster s))))
     + Z.of_nat (length (inflight s)) ≤ MaxInstances c)
  ∧ Z.of_nat (size (durable (File (cluster s))))
    + Z.of_nat (length (inflight s))
    ≤ Z.max (MaxInstances c) (Z.of_nat (size (durable (File c))))
  ∧ ∀ n todo pending' npending' launched,
      launchAll (MaxInstances c) n todo (pending s) (npending s)
      = (pending', npending', launched) →
      ∃ queued,
        todo = launched ++ queued
        ∧ npending' = npending s + Z.of_nat (length launched)
        ∧ (∀ i, (i < length launched)%nat →
             npending s + Z.of_nat i < 5
             ∧ n + (npending s + Z.of_nat i) < MaxInstances c)
        ∧ (queued ≠ [] → ¬ (npending' < 5 ∧ n + npending' < MaxInstances c)).
Proof.
  intros Hreach.
  destruct (reaches_caps _ _ _ _ _ _ _ Hreach) as [Hcap Hmax].
  destruct (reaches_accounts _ _ _ _ _ _ _ Hreach) as (_ & Hcount & _).
  unfold maxPending in *.
  split; [done |]. split; [done |]. split; [lia |].
  split; [lia |]. split; [lia |].
  intros n todo pending' npending' launched Hrun.
  destruct (launchAll_spec _ _ _ _ _ _ _ _ Hrun)
    as (queued & Htodo & Hn & _ & Hguards & Hstop).
  exists queued. by unfold maxPending in *.
Qed.

(** C9.  In every state that [loop] reaches, that is at the start of
    every turn, [npending] is the number of launches in flight and
    [pending] is the sum of the resources of their configurations.  The
    launch loop adds the resources of each configuration it launches
    and counts it; the receipt of a launch from [done], with or without
    error, subtracts the resources of its configuration and counts it
    off. *)
Theorem pending_accounts_for_the_launches_in_flight c s :
  reaches client_New rangeOf MinAvailable Unavailable ScaledDistance c s →
  npending s = Z.of_nat (length (inflight s))
  ∧ reflow.equal (pending s) (total (inflight s))
  ∧ (∀ n todo pending' npending' launched,
       launchAll (MaxInstances c) n todo (pending s) (npending s)
       = (pending', npending', launched) →
       npending' = npending s + Z.of_nat (length launched)
       ∧ reflow.equal pending' (reflow.Add (pending s) (total launched)))
  ∧ (∀ ctxErr needPoll k err instance s' notified,
       receive client_New Unavailable ctxErr s needPoll (done k err instance)
       = Some (s', notified) →
       ∃ config,
         inflight s !! k = Some config
         ∧ inflight s' = delete k (inflight s)
         ∧ pending s' = reflow.Sub (pending s) (Resources config)
         ∧ npending s' = npending s - 1).
Proof.
  intros Hreach.
  destruct (reaches_accounts _ _ _ _ _ _ _ Hreach) as (_ & Hcount & Hsum).
  split; [done |]. split; [done |]. split.
  - intros n todo pending' npending' launched Hrun.
    destruct (launchAll_spec _ _ _ _ _ _ _ _ Hrun) as (queued & _ & Hn & Hp & _).
    done.
  - intros ctxErr needPoll k err instance s' notified Hrecv.
    apply receive_done in Hrecv as (config & Hk & Hp & Hn & Hfl & _).
    by exists config.
Qed.

Lemma run_reaches c s evs s' :
  reaches client_New rangeOf MinAvailable Unavailable ScaledDistance c s →
  run client_New MinAvailable Unavailable ScaledDistance s evs = Some s' →
  reaches client_New rangeOf MinAvailable Unavailable ScaledDistance c s'.
Proof.
  revert s. induction evs as [|[ctxErr ev] evs IH]; intros s Hreach; cbn [run].
  - by intros [= <-].
  - destruct (turn _ _ _ _ ctxErr s ev) as [[s1 notified]|] eqn:Hturn; [| done].
    apply IH. by eapply reaches_turn.
Qed.

End Growing.

Section Allocating.

Context {Pool instanceState Alloc : Type}.
Variable Available : instanceState → reflow.Resources → bool.

Implicit Types (c : Cluster Pool instanceState)
  (evs before after : list (allocEvent Alloc)).

(** C6.  The retry loop of [Allocate] returns in two cases only, each
    after failed attempts and nothing else: on an attempt that
    succeeds, with its alloc and no error; on the end of the context,
    with no alloc and the error of the context.  While attempts fail it
    keeps selecting, however many they are.  [Allocate] gives what this
    loop gives when the requirement is satisfiable and the first
    attempt on the existing pools is not made or fails. *)
Theorem retry_returns_on_success_or_cancellation_only (req : Requirements) :
  (∀ evs alloc err,
     (retry req evs).1 = returned alloc err →
     ∃ before ev after,
       evs = before ++ ev :: after ∧ Forall failedAttempt before
       ∧ ((∃ a, (ev = needch (inr a) ∨ ev = tickerC (inr a))
                ∧ alloc = Some a ∧ err = None)
          ∨ (∃ e, ev = ctxDone e ∧ alloc = None ∧ err = Some e)))
  ∧ (∀ before after a,
       Forall failedAttempt before →
       (retry req (before ++ needch (inr a) :: after)).1 = returned (Some a) None
       ∧ (retry req (before ++ tickerC (inr a) :: after)).1
         = returned (Some a) None)
  ∧ (∀ before after e,
       Forall failedAttempt before →
       (retry req (before ++ ctxDone e :: after)).1 = returned None (Some e))
  ∧ (∀ evs, Forall failedAttempt evs → (retry req evs).1 = selecting)
  ∧ (∀ c direct evs,
       Available (instanceState_ c) (reflow.Min_ req) = true →
       Mux c = [] ∨ (∃ e, direct = inl e) →
       (Allocate Available c req direct evs).1 = (retry req evs).1).
Proof.
  split; [apply retry_returned |]. split; [| split; [| split]].
  - intros before after a Hfailed. by rewrite !retry_after_failed.
  - intros before after e Hfailed. by rewrite retry_after_failed.
  - apply retry_failed.
  - intros c direct evs Hsat Hfirst. unfold Allocate. rewrite Hsat. simpl.
    destruct (retry req evs) as [o effs]. case_bool_decide as Hsize; [| done].
    destruct Hfirst as [Hmux | [e ->]]; [| done].
    rewrite Hmux in Hsize. simpl in Hsize. lia.
Qed.

(** C7.  When [Available] finds the [Min] of the requirement
    unsatisfiable, [Allocate] returns a resources-exhausted error at
    once, whatever the pools and whatever would have come later: it
    sends no waiter to [loop], which is what starts launches, and makes
    no attempt. *)
Theorem Allocate_fails_fast_when_unsatisfiable c (req : Requirements)
    (direct : error + Alloc) evs :
  Available (instanceState_ c) (reflow.Min_ req) = false →
  Allocate Available c req direct evs
  = (returned None (Some errors_ResourcesExhausted), []).
Proof. intros Hsat. unfold Allocate. by rewrite Hsat. Qed.

End Allocating.

(** ** The loop and Allocate on the example cluster *)

Section GrowingExamples.

Import Example.

(** C1.  Two waiters that each need the whole of the one instance type:
    the first fits, the two together do not.  The packing of [loop]
    plans one launch, of the zero configuration that the failed
    selection returned, and passes over the second waiter, where the
    packing of the specification plans the instance type for the first
    waiter and again for the second; the turn launches the zero
    configuration. *)
Theorem pack_closes_the_bucket_on_the_failed_selection :
  let ws := [waiterOf 1 2 2; waiterOf 2 2 2] in
  let ist := (c3large, false) in
  let s := {| cluster := empty; waiters := ws; pending := ∅;
              npending := 0; inflight := [] |} in
  sort_Slice ScaledDistance ws = ws
  ∧ pack MinAvailable ist false ws = [zeroConfig]
  ∧ pack_spec MinAvailable (length ws) ist false ws = [c3large; c3large]
  ∧ inflight (grow MinAvailable ScaledDistance s).1 = [zeroConfig].
Proof. by vm_compute. Qed.

(** An instance of [c3.large] comes up for three waiters: the first has
    given up, the second takes one CPU of the two, the third needs two
    and stays. *)
Lemma done_instance_satisfies_the_waiters_witness :
  let s := {| cluster := empty;
              waiters := [waiterOf 1 2 2; waiterOf 2 1 1; waiterOf 3 2 2];
              pending := {[ "cpu" := 2 ]}; npending := 1;
              inflight := [c3large] |} in
  ∃ s' notified,
    receive client_New Unavailable cancelled1 s false
            (done 0 None (instance "i-1" "h1" "running"))
    = Some (s', notified)
    ∧ content (File (cluster s'))
      = Some {[ "i-1" := instance "i-1" "h1" "running" ]}
    ∧ Scan cancelled1 {[ "cpu" := 2 ]}
           [waiterOf 1 2 2; waiterOf 2 1 1; waiterOf 3 2 2] (waiters s') notified
    ∧ (waiterOf 1 2 2 ∉ notified) ∧ (waiterOf 1 2 2 ∉ waiters s').
Proof.
  intros s.
  destruct (done_instance_satisfies_the_waiters client_New Unavailable
              cancelled1 s false 0%nat c3large (instance "i-1" "h1" "running"))
    as (s' & notified & Hrecv & Hfile & _ & Hscan & _ & Hdropped).
  - reflexivity.
  - reflexivity.
  - exists s', notified. split; [exact Hrecv |]. split; [| split].
    + rewrite Hfile. f_equal.
    + exact Hscan.
    + apply Hdropped; [by left | by vm_compute].
Defined.

(** The state after the three events of the example is reached. *)
Lemma afterEvents_reached :
  reaches client_New keys MinAvailable Unavailable ScaledDistance empty afterEvents.
Proof.
  apply (run_reaches _ keys _ _ _ empty (start empty) events); [constructor |].
  by vm_compute.
Defined.

Lemma loop_respects_the_caps_witness :
  npending afterEvents = 1
  ∧ (length (inflight afterEvents) ≤ 5)%nat
  ∧ Z.of_nat (size (durable (File (cluster afterEvents))))
    + Z.of_nat (length (inflight afterEvents)) ≤ 2.
Proof.
  destruct (loop_respects_the_caps client_New keys MinAvailable Unavailable
              ScaledDistance empty afterEvents afterEvents_reached)
    as (_ & Hn & Hfive & Hmax & _).
  split; [| split].
  - rewrite Hn. by vm_compute.
  - exact Hfive.
  - apply Hmax. by vm_compute.
Defined.

Lemma pending_accounts_for_the_launches_in_flight_witness :
  npending afterEvents = Z.of_nat (length (inflight afterEvents))
  ∧ reflow.equal (pending afterEvents) (total (inflight afterEvents)).
Proof.
  destruct (pending_accounts_for_the_launches_in_flight client_New keys MinAvailable
              Unavailable ScaledDistance empty afterEvents afterEvents_reached) as (Hn & Hsum & _).
  by split.
Defined.

(** A failed attempt on the tick, a failed attempt on the signal, then
    the context is cancelled: the loop returns the cancellation; on
    failed attempts alone it is still selecting. *)
Lemma retry_returns_on_success_or_cancellation_only_witness :
  let req := Requirements_ (waiterOf 1 2 2) in
  let failed : list (allocEvent Alloc) :=
    [tickerC (inl (OtherError "busy")); needch (inl DeadlineExceeded)] in
  (retry req (failed ++ ctxDone Canceled :: [needch (inr 7%nat)])).1
  = returned None (Some Canceled)
  ∧ (retry req (failed ++ tickerC (inr 7%nat) :: [])).1
    = returned (Some 7%nat) None
  ∧ (retry req failed).1 = selecting.
Proof.
  intros req failed.
  destruct (retry_returns_on_success_or_cancellation_only
              (Pool := Pool) Available (Alloc := Alloc) req)
    as (_ & Hok & Hdone & Hgo & _).
  assert (Forall failedAttempt failed) as Hfailed
    by (repeat constructor).
  split; [| split].
  - by apply Hdone.
  - by apply Hok.
  - by apply Hgo.
Defined.

(** Four CPUs are more than the one instance type has. *)
Lemma Allocate_fails_fast_when_unsatisfiable_witness :
  let req := Requirements_ (waiterOf 1 4 4) in
  Allocate Available empty req (inr 7%nat) [needch (inr 8%nat)]
  = (returned None (Some errors_ResourcesExhausted), []).
Proof.
  intros req.
  apply (Allocate_fails_fast_when_unsatisfiable Available empty req).
  reflexivity.
Defined.

End GrowingExamples.
